(** * commoncrawl-utilities: the streaming record parser and the JSONL router

    A shallow embedding of [src/golang/main.go] ([isReservedWord],
    [processFile], [writeRecordToJSONL]) together with the parts of Go's
    [strings], [bufio] and [path/filepath] packages these functions call.

    Conventions.
    - A Go [string] is a sequence of bytes: Rocq's [string] (one [ascii] per
      byte).
    - [strings.TrimSpace] and [strings.EqualFold] follow Unicode: its white
      space and its case folding.  They are parameters of the embedding
      (the class [Text]), so what is proved of the program holds whatever
      the two functions compute.  Where a property needs more, it says so:
      [agreesOnASCII] is what the two functions do on strings of ASCII
      bytes, their ASCII paths ([asciiTrimSpace], [asciiEqualFold]), and is
      assumed where a run is computed on ASCII text.
    - A Go [map[string]string] is a [gmap string string]; reading a missing
      key yields the empty string.
    - The operating system is an explicit state ([State]): file contents,
      the table of handles that were opened, the [Close] calls that were
      made, and a schedule that says which of the coming fallible calls
      fail.  The map [jsonlFiles], which [processFile] allocates and
      [writeRecordToJSONL] updates through the shared reference, lives in
      that state as well.
    - The bytes [json.Encoder] writes are not modelled: a line of an
      output file is the record [Encode] was given.
    - [processFile] is embedded from line 149 on, where the input file is
      open and decompressed; the loop has a fuel argument, and
      [processFile_total] shows that the fuel [processFile] gives it is
      always enough. *)

From Stdlib Require Import Ascii.
From stdpp Require Import gmap strings list fin_maps.

(** ** Bytes and strings *)

Module Strings.

(** The line feed, ['\n'], as a byte and as a string. *)
Definition LF : ascii := "010"%char.
Definition newline : string := String LF EmptyString.
Definition colon : ascii := ":"%char.

(** [asciiSpace] of package [strings]: tab, line feed, vertical tab, form
    feed, carriage return and space. *)
Definition asciiSpace (c : ascii) : bool :=
  match c with
  | "009"%char | "010"%char | "011"%char | "012"%char | "013"%char
  | " "%char => true
  | _ => false
  end.

(** First loop of [strings.TrimSpace]: skip the leading ASCII white space. *)
Fixpoint TrimLeft (s : string) : string :=
  match s with
  | EmptyString => EmptyString
  | String c s' => if asciiSpace c then TrimLeft s' else s
  end.

(** Second loop of [strings.TrimSpace]: drop the trailing ASCII white
    space. *)
Fixpoint TrimRight (s : string) : string :=
  match s with
  | EmptyString => EmptyString
  | String c s' =>
      match TrimRight s' with
      | EmptyString => if asciiSpace c then EmptyString else String c EmptyString
      | t => String c t
      end
  end.

(** [strings.TrimSpace] on a string of ASCII bytes, where its two loops
    never leave the fast path. *)
Definition asciiTrimSpace (s : string) : string := TrimRight (TrimLeft s).

(** One step of the ASCII loop of [strings.EqualFold]: the two bytes are
    equal, or the smaller one is an upper-case letter and the larger one is
    its lower-case form. *)
Definition foldEq (sr tr : ascii) : bool :=
  if Ascii.eqb tr sr then true
  else
    let a := nat_of_ascii sr in
    let b := nat_of_ascii tr in
    let lo := Nat.min a b in
    let hi := Nat.max a b in
    (65 <=? lo) && (lo <=? 90) && (hi =? lo + 32).

(** [strings.EqualFold] on two strings of ASCII bytes: its first loop,
    and the comparison of the lengths that follows it. *)
Fixpoint asciiEqualFold (s t : string) : bool :=
  match s, t with
  | EmptyString, EmptyString => true
  | String a s', String b t' => foldEq a b && asciiEqualFold s' t'
  | _, _ => false
  end.

(** [strings.TrimSpace] and [strings.EqualFold], the two functions of the
    program that depend on the Unicode tables. *)
Class Text := {
  TrimSpace : string → string;
  EqualFold : string → string → bool;
}.

(** A string of ASCII bytes: every byte is below [utf8.RuneSelf]. *)
Fixpoint isASCII (s : string) : bool :=
  match s with
  | EmptyString => true
  | String c s' => (nat_of_ascii c <? 128) && isASCII s'
  end.

(** On strings of ASCII bytes the two functions take their ASCII paths. *)
Definition agreesOnASCII (lib : Text) : Prop :=
  (∀ s, isASCII s = true → TrimSpace s = asciiTrimSpace s) ∧
  (∀ s t, isASCII s = true → isASCII t = true →
          EqualFold s t = asciiEqualFold s t).

(** The two ASCII paths taken everywhere: the functions with which runs on
    ASCII text are computed. *)
Definition asciiText : Text :=
  {| TrimSpace := asciiTrimSpace; EqualFold := asciiEqualFold |}.

(** [strings.Split(s, sep)] for a separator of one byte: the pieces of [s]
    between the separators, of which there is always at least one. *)
Fixpoint Split (s : string) (sep : ascii) : list string :=
  match s with
  | EmptyString => [EmptyString]
  | String c s' =>
      if Ascii.eqb c sep then EmptyString :: Split s' sep
      else
        match Split s' sep with
        | p :: ps => String c p :: ps
        | [] => [String c EmptyString]
        end
  end.

(** [strings.Join(elems, sep)]. *)
Fixpoint Join (elems : list string) (sep : string) : string :=
  match elems with
  | [] => EmptyString
  | [e] => e
  | e :: es => e +:+ sep +:+ Join es sep
  end.

(** [strings.ReplaceAll(s, old, new)] for [old] and [new] of one byte. *)
Fixpoint ReplaceAll (s : string) (old new : ascii) : string :=
  match s with
  | EmptyString => EmptyString
  | String c s' =>
      String (if Ascii.eqb c old then new else c) (ReplaceAll s' old new)
  end.

End Strings.

(** ** Paths: [path/filepath] on a Unix system *)

Module Filepath.

Import Strings.

Definition Separator : ascii := "/"%char.

(** One element of the scan of [filepath.Clean].  [out] holds the elements
    written so far, last one first; [dotdot] is how many of the first of
    them are [..] elements that cannot be removed (the index where
    backtracking stops).  An empty element and [.] are skipped; [..]
    removes the last element when one can be removed, is written when the
    path is not rooted, and is dropped at the root. *)
Definition cleanStep (rooted : bool) (st : list string * nat) (elem : string)
  : list string * nat :=
  let '(out, dotdot) := st in
  if String.eqb elem "" then st
  else if String.eqb elem "." then st
  else if String.eqb elem ".." then
    if dotdot <? length out then (tl out, dotdot)
    else if rooted then st
    else (".." :: out, S (length out))
  else (elem :: out, dotdot).

(** [filepath.Clean]: the shortest path equivalent to [path] by lexical
    processing. *)
Definition Clean (path : string) : string :=
  match path with
  | EmptyString => "."
  | String c _ =>
      let rooted := Ascii.eqb c Separator in
      let out := fst (fold_left (cleanStep rooted) (Split path Separator) ([], 0)) in
      let body := Join (rev out) "/" in
      if rooted then "/" +:+ body
      else if String.eqb body "" then "." else body
  end.

(** [filepath.Join]: the first elements that are empty are ignored, the
    rest is joined with the separator and cleaned. *)
Fixpoint JoinPath (elem : list string) : string :=
  match elem with
  | [] => EmptyString
  | e :: es => if String.eqb e "" then JoinPath es else Clean (Join elem "/")
  end.

End Filepath.

(** ** The program state *)

Module Main.

Import Strings Filepath.

(** [type Config struct]. *)
Record Config := {
  ReservedWords : list string;
  RecordStart : string;
}.

(** A record under construction: Go's [map[string]string]. *)
Abbreviation Rec := (gmap string string).

(** [m[k]] on a Go map: the empty string when [k] is missing. *)
Definition get (m : Rec) (k : string) : string := default "" (m !! k).

(** The [error] values the run can meet.  [EOF] is [io.EOF]; [ErrRead] is
    any other fault of the reader (a truncated or damaged gzip stream);
    [ErrOpen] is a failure of [os.OpenFile] and [ErrWrite] one of
    [json.Encoder.Encode]. *)
Inductive error := EOF | ErrRead | ErrOpen | ErrWrite.

(** The decompressed input behind [bufio.Reader]: the bytes still to be
    delivered, and the error the underlying stream answers once they are
    used up ([EOF] for a stream that ends cleanly). *)
Record Reader := {
  pending : string;
  ending : error;
}.

(** The world of one run.
    - [files]: the lines of each output file; a line is kept as the record
      [Encode] was given, one element per call.
    - [dirs]: the directories [os.MkdirAll] was asked for.
    - [opened]: the paths of the handles [os.OpenFile] returned, in order;
      the handle is the index.
    - [closed]: the handles given to [Close], one entry per call.
    - [routed]: the arguments of the calls of [writeRecordToJSONL], in
      order (an observation of the run, not part of the program).
    - [faults]: whether the next fallible calls fail; when the list is used
      up every call succeeds.
    - [jsonlFiles]: the map of line 151, path to handle. *)
Record State := {
  files : gmap string (list Rec);
  dirs : gset string;
  opened : list string;
  closed : list nat;
  routed : list Rec;
  faults : list bool;
  jsonlFiles : gmap string nat;
}.

(** The state a run starts from: a file system and a fault schedule. *)
Definition boot (fs : gmap string (list Rec)) (fl : list bool) : State :=
  {| files := fs; dirs := ∅; opened := []; closed := []; routed := [];
     faults := fl; jsonlFiles := ∅ |}.

(** Computations that change the state and end in a value or in an error. *)
Definition M (A : Type) : Type := State → (A + error) * State.

Definition ret {A} (a : A) : M A := λ st, (inl a, st).

Definition bind {A B} (m : M A) (k : A → M B) : M B :=
  λ st, match m st with
        | (inl a, st') => k a st'
        | (inr e, st') => (inr e, st')
        end.

Notation "'let*' x ':=' m 'in' k" := (bind m (λ x, k))
  (at level 10, x name, m at level 100, k at level 200).

(** *** The system calls *)

(** The next entry of the fault schedule. *)
Definition fails (st : State) : bool := hd false (faults st).

(** [os.MkdirAll(path, os.ModePerm)]; the program drops its result. *)
Definition MkdirAll (path : string) : M unit := λ st,
  (inl tt,
   {| files := files st; dirs := {[path]} ∪ dirs st; opened := opened st;
      closed := closed st; routed := routed st; faults := faults st;
      jsonlFiles := jsonlFiles st |}).

(** [os.OpenFile(name, O_APPEND|O_CREATE|O_WRONLY, 0644)]: fails when the
    schedule says so; otherwise the file is created if it is missing, its
    contents are kept, and a new handle is returned. *)
Definition OpenFile (name : string) : M nat := λ st,
  if fails st then
    (inr ErrOpen,
     {| files := files st; dirs := dirs st; opened := opened st;
        closed := closed st; routed := routed st; faults := tl (faults st);
        jsonlFiles := jsonlFiles st |})
  else
    (inl (length (opened st)),
     {| files := <[name := default [] (files st !! name)]> (files st);
        dirs := dirs st; opened := opened st ++ [name];
        closed := closed st; routed := routed st; faults := tl (faults st);
        jsonlFiles := jsonlFiles st |}).

(** [json.NewEncoder(f).Encode(record)] on a handle opened for appending:
    one line is added at the end of the file of the handle.  The call
    fails when the schedule says so, and on a handle that is not open; a
    call that fails is taken to add nothing. *)
Definition Encode (f : nat) (record : Rec) : M unit := λ st,
  let st' :=
    {| files := files st; dirs := dirs st; opened := opened st;
       closed := closed st; routed := routed st; faults := tl (faults st);
       jsonlFiles := jsonlFiles st |} in
  if fails st then (inr ErrWrite, st')
  else
    match opened st !! f with
    | Some name =>
        if bool_decide (f ∈ closed st) then (inr ErrWrite, st')
        else
          (inl tt,
           {| files := <[name := default [] (files st !! name) ++ [record]]> (files st);
              dirs := dirs st; opened := opened st; closed := closed st;
              routed := routed st; faults := tl (faults st);
              jsonlFiles := jsonlFiles st |})
    | None => (inr ErrWrite, st')
    end.

(** [f.Close()]; the program drops its result. *)
Definition Close (f : nat) (st : State) : State :=
  {| files := files st; dirs := dirs st; opened := opened st;
     closed := closed st ++ [f]; routed := routed st; faults := faults st;
     jsonlFiles := jsonlFiles st |}.

(** [jsonlFiles[outputFile] = jsonlFile]. *)
Definition cache (outputFile : string) (f : nat) : M unit := λ st,
  (inl tt,
   {| files := files st; dirs := dirs st; opened := opened st;
      closed := closed st; routed := routed st; faults := faults st;
      jsonlFiles := <[outputFile := f]> (jsonlFiles st) |}).

(** The observation that [writeRecordToJSONL] was called on [record]. *)
Definition called (record : Rec) : M unit := λ st,
  (inl tt,
   {| files := files st; dirs := dirs st; opened := opened st;
      closed := closed st; routed := routed st ++ [record];
      faults := faults st; jsonlFiles := jsonlFiles st |}).

(** [reader.ReadString('\n')]: [cut] finds the first line feed. *)
Fixpoint cut (s : string) : option (string * string) :=
  match s with
  | EmptyString => None
  | String c s' =>
      if Ascii.eqb c LF then Some (String c EmptyString, s')
      else
        match cut s' with
        | Some (line, rest) => Some (String c line, rest)
        | None => None
        end
  end.

(** With a line feed ahead the line, line feed included, is returned with
    no error; without one, what is left is returned with the error of the
    stream. *)
Definition ReadString (reader : Reader) : string * option error * Reader :=
  match cut (pending reader) with
  | Some (line, rest) =>
      (line, None, {| pending := rest; ending := ending reader |})
  | None =>
      (pending reader, Some (ending reader),
       {| pending := EmptyString; ending := ending reader |})
  end.

(** *** The program *)

Section Program.

Context {lib : Text}.

(** [isReservedWord]: the loop over [config.ReservedWords]. *)
Fixpoint anyFold (words : list string) (key : string) : bool :=
  match words with
  | [] => false
  | word :: rest => if EqualFold word key then true else anyFold rest key
  end.

Definition isReservedWord (config : Config) (key : string) : bool :=
  anyFold (ReservedWords config) key.

(** The test of line 162, negated: the line is a record start. *)
Definition isRecordStart (config : Config) (line : string) : bool :=
  String.eqb (TrimSpace line) (RecordStart config).

(** Lines 163 to 173: what a line that is not a record start does to the
    record. *)
Definition store (config : Config) (line : string) (record : Rec) : Rec :=
  let parts := Split line colon in
  let key := hd "" parts in
  if (2 <=? length parts) && isReservedWord config key then
    let value := TrimSpace (Join (tl parts) ":") in
    <[key := value]> record
  else
    <["data" := get record "data" +:+ line]> record.

(** [writeRecordToJSONL]. *)
Definition writeRecordToJSONL (record : Rec) (outputDir : string) : M unit :=
  let* _ := called record in
  let language := ReplaceAll (get record "WARC-Identified-Content-Language") "," "_" in
  let language := if String.eqb language "" then "eng" else language in
  let outputFolder := JoinPath [outputDir; language] in
  let* _ := MkdirAll outputFolder in
  let outputFile := JoinPath [outputFolder; "output.jsonl"] in
  let* jsonlFile :=
    (λ st,
      match jsonlFiles st !! outputFile with
      | Some f => ret f st
      | None =>
          (let* f := OpenFile outputFile in
           let* _ := cache outputFile f in
           ret f) st
      end) in
  Encode jsonlFile record.

(** Lines 191 to 194: [Close] on every value of [jsonlFiles].  Go visits
    the entries of a map in an order it does not fix; here it is the order
    of [map_to_list]. *)
Definition closeAll (st : State) : State :=
  foldl (λ s entry, Close entry.2 s) st (map_to_list (jsonlFiles st)).

(** Lines 185 to 196: after the loop. *)
Definition finish (record : Rec) (outputDir : string) (st : State)
  : option error * State :=
  match writeRecordToJSONL record outputDir st with
  | (inr e, st') => (Some e, st')
  | (inl _, st') => (None, closeAll st')
  end.

(** Lines 153 to 183: the loop.  Each turn reads one line, so [fuel] turns
    are enough for an input of fewer than [fuel] bytes; [None] is the
    answer of a loop that was given too few. *)
Fixpoint scan (fuel : nat) (config : Config) (outputDir : string)
    (reader : Reader) (record : Rec) (st : State)
  : option (option error * State) :=
  match fuel with
  | 0 => None
  | S fuel' =>
      let '(line, err, reader') := ReadString reader in
      match err with
      | Some EOF => Some (finish record outputDir st)
      | Some e => Some (Some e, st)
      | None =>
          if negb (isRecordStart config line) then
            scan fuel' config outputDir reader' (store config line record) st
          else
            match writeRecordToJSONL record outputDir st with
            | (inr e, st') => Some (Some e, st')
            | (inl _, st') => scan fuel' config outputDir reader' ∅ st'
            end
      end
  end.

(** [processFile], from line 149 on: the reader is open, [record] and
    [jsonlFiles] are fresh maps. *)
Definition processFile (reader : Reader) (config : Config) (outputDir : string)
    (st : State) : option (option error * State) :=
  let st0 :=
    {| files := files st; dirs := dirs st; opened := opened st;
       closed := closed st; routed := routed st; faults := faults st;
       jsonlFiles := ∅ |} in
  scan (S (String.length (pending reader))) config outputDir reader ∅ st0.

(** *** The run, seen from the input

    The notions the properties are stated with.  They are not part of the
    program: they say, in the words of the specification, what the program
    is expected to compute. *)

(** The text of [s] before its first [sep], and the text after it when
    there is one. *)
Fixpoint before (s : string) (sep : ascii) : string :=
  match s with
  | EmptyString => EmptyString
  | String c s' => if Ascii.eqb c sep then EmptyString else String c (before s' sep)
  end.

Fixpoint after (s : string) (sep : ascii) : option string :=
  match s with
  | EmptyString => None
  | String c s' => if Ascii.eqb c sep then Some s' else after s' sep
  end.

Fixpoint contains (s : string) (c : ascii) : bool :=
  match s with
  | EmptyString => false
  | String d s' => Ascii.eqb d c || contains s' c
  end.

(** The complete lines of an input, each with its line feed; bytes after
    the last line feed belong to no line. *)
Fixpoint lines (s : string) : list string :=
  match s with
  | EmptyString => []
  | String c s' =>
      if Ascii.eqb c LF then String c EmptyString :: lines s'
      else
        match lines s' with
        | [] => []
        | l :: ls => String c l :: ls
        end
  end.

(** The input up to and including its last line feed. *)
Fixpoint completePart (s : string) : string :=
  match s with
  | EmptyString => EmptyString
  | String c s' =>
      if contains s LF then String c (completePart s') else EmptyString
  end.

(** The lines between the record starts: one run of lines in front of each
    record start, and the run after the last one. *)
Fixpoint segments (config : Config) (ls : list string) : list (list string) :=
  match ls with
  | [] => [[]]
  | l :: ls' =>
      if isRecordStart config l then [] :: segments config ls'
      else
        match segments config ls' with
        | seg :: segs => (l :: seg) :: segs
        | [] => [[l]]
        end
  end.

(** The record a run of lines builds, from [record] and from the empty
    map. *)
Definition buildFrom (config : Config) (record : Rec) (seg : list string) : Rec :=
  foldl (λ r l, store config l r) record seg.

Definition build (config : Config) (seg : list string) : Rec :=
  buildFrom config ∅ seg.

(** The records of a list of lines when the first run of lines is added
    to [record]. *)
Definition emissions (config : Config) (record : Rec) (ls : list string)
  : list Rec :=
  match segments config ls with
  | [] => []
  | seg :: segs => buildFrom config record seg :: (build config <$> segs)
  end.

(** How many lines are record starts. *)
Definition recordStarts (config : Config) (ls : list string) : nat :=
  length (filter (λ l, isRecordStart config l = true) ls).

(** The last complete line is a record start and nothing follows it. *)
Definition endsOnRecordStart (config : Config) (s : string) : bool :=
  String.eqb (completePart s) s &&
  match last (lines s) with
  | Some l => isRecordStart config l
  | None => false
  end.

(** The key a line writes: its text before the first colon for a field
    line, ["data"] for any other line. *)
Definition target (config : Config) (line : string) : string :=
  let parts := Split line colon in
  if (2 <=? length parts) && isReservedWord config (hd "" parts)
  then hd "" parts else "data".

(** The language field of a record. *)
Definition languageField : string := "WARC-Identified-Content-Language".

(** The routing key and the destination of a record, as section 4.2 of the
    specification words them. *)
Definition routingKey (record : Rec) : string :=
  match record !! languageField with
  | None => "eng"
  | Some EmptyString => "eng"
  | Some v => ReplaceAll v "," "_"
  end.

Definition destination (outputRoot : string) (record : Rec) : string :=
  JoinPath [JoinPath [outputRoot; routingKey record]; "output.jsonl"].

(** The file system after [record] was added, as one line, at the end of
    the file at its destination. *)
Definition route (outputRoot : string) (fs : gmap string (list Rec))
    (record : Rec) : gmap string (list Rec) :=
  <[destination outputRoot record :=
      default [] (fs !! destination outputRoot record) ++ [record]]> fs.

(** A plain name: not empty, not [.] or [..], and without a separator. *)
Definition plain (s : string) : bool :=
  negb (String.eqb s "") && negb (String.eqb s ".") &&
  negb (String.eqb s "..") && negb (contains s Separator).

(** The loop over the complete lines of the input: the record in hand
    when they are used up, or the error that stopped the run. *)
Fixpoint feed (config : Config) (outputDir : string) (ls : list string)
    (record : Rec) : M Rec :=
  match ls with
  | [] => ret record
  | line :: ls' =>
      if negb (isRecordStart config line) then
        feed config outputDir ls' (store config line record)
      else
        let* _ := writeRecordToJSONL record outputDir in
        feed config outputDir ls' ∅
  end.

(** The end of a run that read all its complete lines: the error of the
    loop, the error of the reader, or the steps after the loop. *)
Definition outcome (outputDir : string) (e : error)
    (res : (Rec + error) * State) : option error * State :=
  match res with
  | (inr err, st') => (Some err, st')
  | (inl record, st') =>
      match e with
      | EOF => finish record outputDir st'
      | _ => (Some e, st')
      end
  end.

(** What the run keeps true between two calls: [jsonlFiles] holds exactly
    the handles that were opened, each under the path it was opened on,
    and nothing was closed yet. *)
Definition filed (st : State) : Prop :=
  ∀ p f, jsonlFiles st !! p = Some f ↔ opened st !! f = Some p.

Definition consistent (st : State) : Prop := filed st ∧ closed st = [].

(** The state of a fault-free run all of whose records so far, [rs], went
    to the one destination [dest]: nothing is open before the first
    record; afterwards one handle is, and the file holds what it held
    before the run followed by [rs]. *)
Definition single (fs : gmap string (list Rec)) (dest : string)
    (rs : list Rec) (st : State) : Prop :=
  consistent st ∧ faults st = [] ∧ routed st = rs ∧
  match rs with
  | [] => opened st = [] ∧ files st = fs
  | _ => opened st = [dest] ∧ files st = <[dest := default [] (fs !! dest) ++ rs]> fs
  end.

(** The configuration and the input of the first example of section 8. *)
Definition configAB : Config :=
  {| ReservedWords := ["A"; "B"]; RecordStart := "---" |}.

Definition inputAB : string :=
  "A:1" +:+ newline +:+ "---" +:+ newline +:+ "B:2" +:+ newline.

Definition clean (input : string) : Reader :=
  {| pending := input; ending := EOF |}.

Definition configWarcType : Config :=
  {| ReservedWords := ["WARC-Type"]; RecordStart := "WARC/1.0" |}.

Definition configA : Config := {| ReservedWords := ["A"]; RecordStart := "---" |}.

(** One record for the test of the handle cache: the language, a body of
    [n] lines. *)
Fixpoint bodyLines (n : nat) : string :=
  match n with
  | 0 => ""
  | S n' => "payload" +:+ newline +:+ bodyLines n'
  end.

Definition oneRecord (n : nat) : string :=
  "WARC-Identified-Content-Language: fra,deu" +:+ newline +:+ bodyLines (n `mod` 3).

(** [n + 1] records, all in the same languages, separated by [n] record
    starts. *)
Fixpoint sameLanguage (n : nat) : string :=
  match n with
  | 0 => oneRecord 0
  | S n' => oneRecord n +:+ "WARC/1.0" +:+ newline +:+ sameLanguage n'
  end.

Definition configLanguage : Config :=
  {| ReservedWords := ["WARC-Type"; "WARC-Identified-Content-Language"];
     RecordStart := "WARC/1.0" |}.

(** *** Further notions *)

(** The test of line 165: the line is a field line. *)
Definition isField (config : Config) (line : string) : bool :=
  (2 <=? length (Split line colon)) && isReservedWord config (hd "" (Split line colon)).

(** The strings of a list, one after the other. *)
Definition glue (ls : list string) : string := foldr String.append "" ls.

(** A byte with an upper-case ASCII letter turned into the lower-case one,
    and a string with all its bytes so turned. *)
Definition lowerByte (c : ascii) : ascii :=
  let n := nat_of_ascii c in
  if (65 <=? n) && (n <=? 90) then ascii_of_nat (n + 32) else c.

Fixpoint ToLower (s : string) : string :=
  match s with
  | EmptyString => EmptyString
  | String c s' => String (lowerByte c) (ToLower s')
  end.

(** A string of ASCII white space only. *)
Fixpoint allSpace (s : string) : bool :=
  match s with
  | EmptyString => true
  | String c s' => asciiSpace c && allSpace s'
  end.

(** No file of [fs] is missing from [fs'] or has lost a line there: each
    holds in [fs'] what it held in [fs], followed by more. *)
Definition extends (fs fs' : gmap string (list Rec)) : Prop :=
  ∀ p old, fs !! p = Some old → ∃ new, fs' !! p = Some (old ++ new).

End Program.

End Main.

Import Strings Filepath Main.

(** ** Strings *)

Section StringFacts.

Lemma Split_nonempty s sep : Split s sep ≠ [].
Proof.
  destruct s as [|c s]; simpl; [done|].
  destruct (Ascii.eqb c sep); [done|].
  by destruct (Split s sep).
Qed.

Lemma Split_hd s sep : hd "" (Split s sep) = before s sep.
Proof.
  induction s as [|c s IH]; simpl; [done|].
  destruct (Ascii.eqb c sep); [done|].
  rewrite <- IH. by destruct (Split s sep).
Qed.

Lemma Split_length s sep : (2 <=? length (Split s sep)) = contains s sep.
Proof.
  induction s as [|c s IH]; simpl; [done|].
  destruct (Ascii.eqb c sep); simpl.
  - pose proof (Split_nonempty s sep). by destruct (Split s sep).
  - rewrite <- IH. by destruct (Split s sep) as [|p [|q ps]].
Qed.

Lemma Join_Split s sep : Join (Split s sep) (String sep "") = s.
Proof.
  induction s as [|c s IH]; simpl; [done|].
  pose proof (Split_nonempty s sep) as N.
  destruct (Split s sep) as [|p ps]; [done|].
  destruct (Ascii.eqb c sep) eqn:E.
  - apply Ascii.eqb_eq in E as ->. cbn [Join]. simpl. by rewrite <- IH.
  - destruct ps as [|q ps]; simpl in *; by rewrite <- IH.
Qed.

Lemma Split_tl s sep t :
  after s sep = Some t → Join (tl (Split s sep)) (String sep "") = t.
Proof.
  revert t. induction s as [|c s IH]; intros t; simpl; [done|].
  destruct (Ascii.eqb c sep) eqn:E.
  - intros [= <-]. simpl. apply Join_Split.
  - intros H. specialize (IH _ H).
    by destruct (Split s sep).
Qed.

Lemma after_contains s sep : contains s sep = true → is_Some (after s sep).
Proof.
  induction s as [|c s IH]; simpl; [done|].
  destruct (Ascii.eqb c sep); simpl; eauto.
Qed.

Lemma cut_lines s :
  match cut s with
  | Some (line, rest) =>
      lines s = line :: lines rest ∧ String.length rest < String.length s
  | None => lines s = []
  end.
Proof.
  induction s as [|c s IH]; simpl; [done|].
  destruct (Ascii.eqb c LF); [split; [done|lia]|].
  destruct (cut s) as [[line rest]|].
  - destruct IH as [-> ?]. split; [done|lia].
  - by rewrite IH.
Qed.

Lemma cut_contains s : contains s LF = false → cut s = None.
Proof.
  induction s as [|c s IH]; simpl; [done|].
  destruct (Ascii.eqb c LF); simpl; [done|].
  intros H. by rewrite IH.
Qed.

Lemma lines_contains s : contains s LF = false → lines s = [].
Proof.
  intros H. pose proof (cut_lines s) as C. by rewrite cut_contains in C.
Qed.

Lemma lines_completePart s : lines (completePart s) = lines s.
Proof.
  induction s as [|c s IH]; [done|].
  cbn [completePart]. destruct (contains (String c s) LF) eqn:E.
  - simpl. by rewrite IH.
  - by rewrite (lines_contains (String c s)).
Qed.

Lemma completePart_split s :
  ∃ tail, s = completePart s +:+ tail ∧ contains tail LF = false.
Proof.
  induction s as [|c s (tail & Hs & Ht)]; [by exists ""|].
  cbn [completePart]. destruct (contains (String c s) LF) eqn:E.
  - exists tail. split; [|done].
    change (String c s = String c (completePart s +:+ tail)). by f_equal.
  - by exists (String c s).
Qed.

End StringFacts.

(** ** Paths of plain names *)

Lemma append_assoc (s t u : string) : (s +:+ t) +:+ u = s +:+ t +:+ u.
Proof.
  induction s as [|c s IH]; [done|].
  change (String c ((s +:+ t) +:+ u) = String c (s +:+ t +:+ u)). by f_equal.
Qed.

Lemma Split_cons s t sep :
  contains s sep = false → Split (s +:+ String sep t) sep = s :: Split t sep.
Proof.
  induction s as [|c s IH].
  - intros _. change (Split (String sep t) sep = ["" ] ++ Split t sep).
    cbn [Split]. by rewrite Ascii.eqb_refl.
  - change (String c s +:+ String sep t) with (String c (s +:+ String sep t)).
    cbn [Split contains].
    destruct (Ascii.eqb c sep); cbn [orb]; [done|]. intros H. by rewrite IH.
Qed.

Lemma Split_one s sep : contains s sep = false → Split s sep = [s].
Proof.
  induction s as [|c s IH]; cbn [Split contains]; [done|].
  destruct (Ascii.eqb c sep); cbn [orb]; [done|]. intros H. by rewrite IH.
Qed.

Lemma Split_Join elems sep :
  elems ≠ [] → Forall (λ e, contains e sep = false) elems →
  Split (Join elems (String sep "")) sep = elems.
Proof.
  induction elems as [|e elems IH]; [done|]. intros _ H.
  apply Forall_cons in H as [He H].
  destruct elems as [|e' elems].
  - by apply Split_one.
  - change (Join (e :: e' :: elems) (String sep ""))
      with (e +:+ String sep (Join (e' :: elems) (String sep ""))).
    rewrite Split_cons by done. by rewrite IH.
Qed.

Lemma Join_snoc elems x sep :
  elems ≠ [] → Join (elems ++ [x]) sep = Join elems sep +:+ sep +:+ x.
Proof.
  induction elems as [|e elems IH]; [done|]. intros _.
  destruct elems as [|e' elems]; [done|].
  change (Join ((e :: e' :: elems) ++ [x]) sep)
    with (e +:+ sep +:+ Join ((e' :: elems) ++ [x]) sep).
  rewrite IH by done. cbn [Join]. by rewrite !append_assoc.
Qed.

Lemma plain_parts s :
  plain s = true →
  s ≠ "" ∧ s ≠ "." ∧ s ≠ ".." ∧ contains s Separator = false.
Proof.
  unfold plain. rewrite !andb_true_iff, !negb_true_iff, !String.eqb_neq. tauto.
Qed.

Lemma cleanStep_plain rooted out dotdot e :
  plain e = true → cleanStep rooted (out, dotdot) e = (e :: out, dotdot).
Proof.
  intros (H1 & H2 & H3 & _)%plain_parts. unfold cleanStep.
  apply String.eqb_neq in H1, H2, H3. by rewrite H1, H2, H3.
Qed.

Lemma fold_cleanStep_plain rooted elems out dotdot :
  Forall (λ e, plain e = true) elems →
  fold_left (cleanStep rooted) elems (out, dotdot) = (rev elems ++ out, dotdot).
Proof.
  revert out. induction elems as [|e elems IH]; intros out H; [done|].
  cbn [fold_left rev].
  apply Forall_cons in H as [He H].
  rewrite cleanStep_plain, IH by done. by rewrite <- app_assoc.
Qed.

(** A path of plain names is clean. *)
Lemma Clean_plain elems :
  elems ≠ [] → Forall (λ e, plain e = true) elems →
  Clean (Join elems "/") = Join elems "/" ∧ Join elems "/" ≠ "".
Proof.
  intros Hne H.
  assert (Forall (λ e, contains e Separator = false) elems) as Hsep.
  { eapply Forall_impl; [exact H|]. by intros e (_ & _ & _ & ?)%plain_parts. }
  assert (∃ c rest, Join elems "/" = String c rest ∧ Ascii.eqb c Separator = false)
    as (c & rest & Hj & Hc).
  { destruct elems as [|e elems]; [done|].
    apply Forall_cons in H as [(He & _ & _ & Hs)%plain_parts _].
    destruct e as [|c e]; [done|]. cbn in Hs. apply orb_false_iff in Hs as [Hc _].
    exists c. destruct elems; cbn; eauto. }
  split; [|by rewrite Hj].
  pose proof (Split_Join elems Separator Hne Hsep) as HS.
  unfold Clean. rewrite Hj, Hc, <- Hj. unfold Separator in HS |- *. rewrite HS.
  rewrite fold_cleanStep_plain by done. cbn [fst].
  rewrite app_nil_r, rev_involutive. by rewrite Hj.
Qed.

(** Under a root made of plain names, a record whose routing key is a
    plain name goes to root, key and [output.jsonl], joined by slashes;
    with no root it goes to key and [output.jsonl]. *)
Lemma destination_plain root record :
  plain (routingKey record) = true →
  Forall (λ e, plain e = true) root →
  destination (Join root "/") record
  = Join (root ++ [routingKey record; "output.jsonl"]) "/".
Proof.
  intros Hk Hroot. unfold destination.
  assert (JoinPath [Join root "/"; routingKey record]
          = Join (root ++ [routingKey record]) "/") as ->.
  { destruct root as [|e root].
    - cbn [Join JoinPath app].
      destruct (plain_parts _ Hk) as (Hne & _).
      apply String.eqb_neq in Hne. rewrite String.eqb_refl, Hne.
      apply (Clean_plain [routingKey record]); [done|by constructor]. 
    - destruct (Clean_plain (e :: root)) as [_ Hne]; [done|done|].
      cbn [JoinPath]. apply String.eqb_neq in Hne. rewrite Hne.
      change (Join [Join (e :: root) "/"; routingKey record] "/")
        with (Join (e :: root) "/" +:+ "/" +:+ routingKey record).
      rewrite <- Join_snoc by done.
      apply Clean_plain; [by destruct root|].
      apply Forall_app. split; [done|by constructor]. }
  assert (Forall (λ e, plain e = true) (root ++ [routingKey record])) as Hall.
  { apply Forall_app. split; [done|by constructor]. }
  destruct (Clean_plain (root ++ [routingKey record])) as [_ Hne];
    [by destruct root|done|].
  cbn [JoinPath]. apply String.eqb_neq in Hne. rewrite Hne.
  change (Join [?a; ?b] "/") with (a +:+ "/" +:+ b).
  rewrite <- Join_snoc by (by destruct root).
  rewrite <- app_assoc. cbn [app].
  apply Clean_plain; [by destruct root|].
  apply Forall_app. split; [done|]. repeat constructor; done.
Qed.

(** ** The router *)

Section RouterFacts.

Lemma language_routingKey (record : Rec) :
  (let language := ReplaceAll (get record "WARC-Identified-Content-Language") "," "_" in
   if String.eqb language "" then "eng" else language) = routingKey record.
Proof.
  unfold routingKey, get, languageField.
  by destruct (record !! "WARC-Identified-Content-Language") as [[|c v]|].
Qed.

Lemma consistent_boot fs fl : consistent (boot fs fl).
Proof.
  split; [|done]. intros p f. simpl. rewrite lookup_empty.
  by rewrite lookup_nil.
Qed.

Lemma write_shape record out st :
  writeRecordToJSONL record out st =
  let dest := destination out record in
  let st1 :=
    {| files := files st; dirs := {[JoinPath [out; routingKey record]]} ∪ dirs st;
       opened := opened st; closed := closed st;
       routed := routed st ++ [record]; faults := faults st;
       jsonlFiles := jsonlFiles st |} in
  match jsonlFiles st !! dest with
  | Some f => Encode f record st1
  | None =>
      match OpenFile dest st1 with
      | (inl f, st2) =>
          Encode f record
            {| files := files st2; dirs := dirs st2; opened := opened st2;
               closed := closed st2; routed := routed st2; faults := faults st2;
               jsonlFiles := <[dest := f]> (jsonlFiles st2) |}
      | (inr e, st2) => (inr e, st2)
      end
  end.
Proof.
  unfold writeRecordToJSONL, destination.
  rewrite <- (language_routingKey record).
  unfold bind, called, MkdirAll, cache, ret. simpl.
  destruct (jsonlFiles st !! _); [done|].
  by destruct (OpenFile _ _) as [[f|e] st2].
Qed.

Lemma consistent_fields st st' :
  jsonlFiles st' = jsonlFiles st → opened st' = opened st →
  closed st' = closed st → consistent st → consistent st'.
Proof. unfold consistent, filed. by intros -> -> ->. Qed.

Lemma consistent_open st st' dest :
  consistent st → jsonlFiles st !! dest = None →
  jsonlFiles st' = <[dest := length (opened st)]> (jsonlFiles st) →
  opened st' = opened st ++ [dest] → closed st' = closed st →
  consistent st'.
Proof.
  unfold consistent, filed. intros [C Hcl] N -> -> ->. split; [|done]. intros p f.
  destruct (decide (f < length (opened st))) as [Hlt|Hge].
  - rewrite lookup_app_l by done. rewrite <- C.
    destruct (decide (dest = p)) as [<-|Hne].
    + rewrite lookup_insert_eq, N. split; [|done].
      intros [= <-]. lia.
    + by rewrite lookup_insert_ne.
  - rewrite lookup_app_r by lia.
    destruct (decide (dest = p)) as [<-|Hne].
    + rewrite lookup_insert_eq. split.
      * intros [= <-]. by rewrite Nat.sub_diag.
      * intros H. apply list_lookup_singleton_Some in H as [H0 _].
        f_equal. lia.
    + rewrite lookup_insert_ne by done. split.
      * intros H. apply C, lookup_lt_Some in H. lia.
      * intros H. apply list_lookup_singleton_Some in H as [_ H0]. done.
Qed.

Ltac write_cases st record out :=
  rewrite (write_shape record out st); cbn zeta;
  destruct (jsonlFiles st !! destination out record) as [f|] eqn:Hcache;
  unfold OpenFile, Encode, fails; cbn [faults opened closed files jsonlFiles dirs routed];
  destruct (faults st) as [|[|] fl] eqn:Hfl; cbn [hd tl].

Lemma write_consistent record out st :
  consistent st → consistent (writeRecordToJSONL record out st).2.
Proof.
  intros C. 
  write_cases st record out.
  all: repeat match goal with
       | |- context [match ?x with _ => _ end] => destruct x eqn:?
       end; cbn [snd].
  all: try (eapply consistent_fields; [..|exact C]; done).
  all: try (eapply (consistent_open st _ (destination out record));
            [exact C|exact Hcache|..]; done).
Qed.

Lemma write_routed record out st :
  routed (writeRecordToJSONL record out st).2 = routed st ++ [record] ∧
  closed (writeRecordToJSONL record out st).2 = closed st.
Proof.
  write_cases st record out.
  all: repeat match goal with
       | |- context [match ?x with _ => _ end] => destruct x eqn:?
       end; done.
Qed.

(** A handle of [jsonlFiles] is open on the path it is filed under, so
    [Encode] writes there. *)
Lemma Encode_consistent f record st dest :
  consistent st → opened st !! f = Some dest → fails st = false →
  Encode f record st =
    (inl tt,
     {| files := <[dest := default [] (files st !! dest) ++ [record]]> (files st);
        dirs := dirs st; opened := opened st; closed := closed st;
        routed := routed st; faults := tl (faults st);
        jsonlFiles := jsonlFiles st |}).
Proof.
  intros [_ Hcl] Hop Hf. unfold Encode. rewrite Hf, Hop, Hcl.
  by rewrite bool_decide_eq_false_2 by apply not_elem_of_nil.
Qed.

Lemma write_ok_effect record out st u st' :
  consistent st →
  writeRecordToJSONL record out st = (inl u, st') →
  let dest := destination out record in
  files st' = <[dest := default [] (files st !! dest) ++ [record]]> (files st) ∧
  opened st' =
    opened st ++ match jsonlFiles st !! dest with Some _ => [] | None => [dest] end ∧
  is_Some (jsonlFiles st' !! dest) ∧
  (is_Some (jsonlFiles st !! dest) → jsonlFiles st' = jsonlFiles st).
Proof.
  intros C. rewrite write_shape. cbn zeta.
  set (dest := destination out record).
  destruct (jsonlFiles st !! dest) as [f|] eqn:Hcache.
  - set (st1 := Build_State _ _ _ _ _ _ _).
    assert (consistent st1) as C1 by (by eapply consistent_fields; [..|exact C]).
    assert (opened st1 !! f = Some dest) as Hop by (by apply C).
    destruct (fails st1) eqn:Hf.
    + unfold Encode. by rewrite Hf.
    + rewrite (Encode_consistent _ _ _ dest C1 Hop Hf). intros [= _ <-].
      cbn. rewrite app_nil_r. eauto.
  - unfold OpenFile, fails. cbn [faults opened closed files jsonlFiles dirs routed].
    destruct (hd false (faults st)) eqn:Hf1; [done|].
    set (st2 := Build_State _ _ _ _ _ _ _).
    assert (consistent st2) as C2.
    { eapply (consistent_open st _ dest); [exact C|exact Hcache|done..]. }
    assert (opened st2 !! length (opened st) = Some dest) as Hop.
    { cbn. by rewrite lookup_app_r, Nat.sub_diag. }
    destruct (fails st2) eqn:Hf.
    + unfold Encode. by rewrite Hf.
    + rewrite (Encode_consistent _ _ _ dest C2 Hop Hf). intros [= _ <-].
      cbn. rewrite lookup_insert_eq, insert_insert_eq, lookup_insert_eq.
      split_and!; [done|done|eauto|by intros [? ?]].
Qed.

Lemma write_no_fault record out st :
  consistent st → faults st = [] →
  ∃ st', writeRecordToJSONL record out st = (inl tt, st') ∧ faults st' = [].
Proof.
  intros C Hfl. rewrite write_shape. cbn zeta.
  set (dest := destination out record).
  destruct (jsonlFiles st !! dest) as [f|] eqn:Hcache.
  - set (st1 := Build_State _ _ _ _ _ _ _).
    assert (consistent st1) as C1 by (by eapply consistent_fields; [..|exact C]).
    assert (opened st1 !! f = Some dest) as Hop by (by apply C).
    assert (fails st1 = false) as Hf by (unfold fails; cbn; by rewrite Hfl).
    rewrite (Encode_consistent _ _ _ dest C1 Hop Hf).
    eexists. split; [done|]. cbn. by rewrite Hfl.
  - unfold OpenFile, fails. cbn [faults opened closed files jsonlFiles dirs routed].
    rewrite Hfl. cbn [hd tl].
    set (st2 := Build_State _ _ _ _ _ _ _).
    assert (consistent st2) as C2.
    { eapply (consistent_open st _ dest); [exact C|exact Hcache|done..]. }
    assert (opened st2 !! length (opened st) = Some dest) as Hop.
    { cbn. by rewrite lookup_app_r, Nat.sub_diag. }
    assert (fails st2 = false) as Hf by done.
    rewrite (Encode_consistent _ _ _ dest C2 Hop Hf).
    eexists. split; done.
Qed.

End RouterFacts.

(** ** The loop *)

Section LoopFacts.

Context {lib : Text}.

Variable config : Config.
Variable outputDir : string.

(** With more fuel than the input has bytes, the loop is [feed] over the
    complete lines, followed by what the end of the stream asks for. *)
Lemma scan_feed fuel reader record st :
  String.length (pending reader) < fuel →
  scan fuel config outputDir reader record st =
  Some (outcome outputDir (ending reader)
          (feed config outputDir (lines (pending reader)) record st)).
Proof.
  revert reader record st.
  induction fuel as [|fuel IH]; intros [s e] record st Hlen; [lia|].
  cbn [scan pending ending] in *. unfold ReadString. cbn [pending ending].
  pose proof (cut_lines s) as Hcut.
  destruct (cut s) as [[line rest]|].
  - destruct Hcut as [-> Hrest]. cbn [feed].
    destruct (negb (isRecordStart config line)).
    + rewrite IH by (cbn; lia). done.
    + unfold bind.
      destruct (writeRecordToJSONL record outputDir st) as [[u|err] st1]; [|done].
      rewrite IH by (cbn; lia). done.
  - rewrite Hcut. cbn. by destruct e.
Qed.

Lemma processFile_feed reader st :
  processFile reader config outputDir st =
  Some (outcome outputDir (ending reader)
          (feed config outputDir (lines (pending reader)) ∅
             {| files := files st; dirs := dirs st; opened := opened st;
                closed := closed st; routed := routed st; faults := faults st;
                jsonlFiles := ∅ |})).
Proof. unfold processFile. apply scan_feed. lia. Qed.

Lemma segments_nonempty ls : segments config ls ≠ [].
Proof.
  destruct ls as [|l ls]; cbn; [done|].
  destruct (isRecordStart config l); [done|].
  by destruct (segments config ls).
Qed.

Lemma emissions_empty ls :
  emissions config ∅ ls = build config <$> segments config ls.
Proof.
  unfold emissions. by destruct (segments config ls).
Qed.

Lemma emissions_line l ls record :
  isRecordStart config l = false →
  emissions config record (l :: ls) = emissions config (store config l record) ls.
Proof.
  intros H. unfold emissions. cbn [segments]. rewrite H.
  pose proof (segments_nonempty ls).
  by destruct (segments config ls).
Qed.

Lemma emissions_start l ls record :
  isRecordStart config l = true →
  emissions config record (l :: ls) = record :: emissions config ∅ ls.
Proof.
  intros H. unfold emissions at 1. cbn [segments]. rewrite H.
  by rewrite emissions_empty.
Qed.

Lemma segments_length ls :
  length (segments config ls) = S (recordStarts config ls).
Proof.
  unfold recordStarts.
  induction ls as [|l ls IH]; [done|]. cbn [segments].
  destruct (isRecordStart config l) eqn:E.
  - rewrite filter_cons_True by done. cbn. by rewrite IH.
  - rewrite filter_cons_False by (by rewrite E). rewrite <- IH.
    pose proof (segments_nonempty ls).
    by destruct (segments config ls).
Qed.

Lemma segments_snoc_start ls l :
  isRecordStart config l = true →
  segments config (ls ++ [l]) = segments config ls ++ [[]].
Proof.
  intros H. induction ls as [|x ls IH]; cbn [segments app].
  - by rewrite H.
  - rewrite IH. destruct (isRecordStart config x); [done|].
    pose proof (segments_nonempty ls).
    by destruct (segments config ls).
Qed.

(** The records handed to the router while the lines are read, together
    with the record in hand at the end, are the emissions of the lines. *)
Lemma feed_routed ls record st r st' :
  feed config outputDir ls record st = (inl r, st') →
  routed st' ++ [r] = routed st ++ emissions config record ls.
Proof.
  revert record st. induction ls as [|l ls IH]; intros record st; cbn [feed].
  - intros [= <- <-]. unfold emissions. done.
  - destruct (isRecordStart config l) eqn:E; cbn [negb].
    + unfold bind.
      pose proof (write_routed record outputDir st) as [Hr _].
      destruct (writeRecordToJSONL record outputDir st) as [[u|err] st1]; [|done].
      cbn [snd] in Hr.
      intros H. apply IH in H. rewrite H, Hr, emissions_start by done.
      by rewrite <- app_assoc.
    + intros H. apply IH in H. by rewrite emissions_line.
Qed.

Lemma feed_consistent ls record st :
  consistent st → consistent (feed config outputDir ls record st).2.
Proof.
  revert record st. induction ls as [|l ls IH]; intros record st C; cbn [feed].
  - done.
  - destruct (negb (isRecordStart config l)); [by apply IH|].
    unfold bind.
    pose proof (write_consistent record outputDir st C) as C1.
    destruct (writeRecordToJSONL record outputDir st) as [[u|err] st1]; [|done].
    by apply IH.
Qed.

Lemma feed_no_fault ls record st :
  consistent st → faults st = [] →
  ∃ r st', feed config outputDir ls record st = (inl r, st') ∧ faults st' = [].
Proof.
  revert record st. induction ls as [|l ls IH]; intros record st C Hfl; cbn [feed].
  - by exists record, st.
  - destruct (negb (isRecordStart config l)); [by apply IH|].
    unfold bind.
    destruct (write_no_fault record outputDir st C Hfl) as (st1 & Hw & Hfl1).
    pose proof (write_consistent record outputDir st C) as C1.
    rewrite Hw in *. by apply IH.
Qed.

Lemma filed_NoDup st : filed st → NoDup (opened st).
Proof.
  intros F. apply NoDup_alt. intros i j p Hi Hj.
  apply F in Hi, Hj. congruence.
Qed.

Lemma foldl_Close (l : list (string * nat)) st :
  let st' := foldl (λ s entry, Close entry.2 s) st l in
  files st' = files st ∧ opened st' = opened st ∧ routed st' = routed st ∧
  faults st' = faults st ∧ jsonlFiles st' = jsonlFiles st ∧
  closed st' = closed st ++ l.*2.
Proof.
  revert st. induction l as [|x l IH]; intros st; cbn.
  - by rewrite app_nil_r.
  - destruct (IH (Close x.2 st)) as (-> & -> & -> & -> & -> & ->).
    cbn. by rewrite <- app_assoc.
Qed.

Lemma closeAll_fields st :
  files (closeAll st) = files st ∧ opened (closeAll st) = opened st ∧
  routed (closeAll st) = routed st ∧ faults (closeAll st) = faults st ∧
  jsonlFiles (closeAll st) = jsonlFiles st ∧
  closed (closeAll st) = closed st ++ (map_to_list (jsonlFiles st)).*2.
Proof. apply foldl_Close. Qed.

(** After [closeAll] on a consistent state every handle that was opened
    is closed, and none is closed twice. *)
Lemma closeAll_once st :
  consistent st →
  NoDup (closed (closeAll st)) ∧
  ∀ f, f ∈ closed (closeAll st) ↔ f < length (opened st).
Proof.
  intros [F Hcl].
  destruct (closeAll_fields st) as (_ & _ & _ & _ & _ & ->).
  rewrite Hcl. cbn [app]. split.
  - apply NoDup_fmap_2_strong; [|apply NoDup_map_to_list].
    intros [p f] [q g] Hp Hq. cbn. intros <-.
    apply elem_of_map_to_list, F in Hp, Hq. congruence.
  - intros f. rewrite <- lookup_lt_is_Some. split.
    + intros H. apply list_elem_of_fmap in H as ([p g] & -> & H).
      apply elem_of_map_to_list, F in H. by exists p.
    + intros [p H]. apply F, elem_of_map_to_list in H.
      apply list_elem_of_fmap. by exists (p, f).
Qed.

(** Every way a run can end. *)
Lemma processFile_cases reader fs fl :
  ∃ res st1,
    feed config outputDir (lines (pending reader)) ∅ (boot fs fl) = (res, st1) ∧
    consistent st1 ∧
    processFile reader config outputDir (boot fs fl) =
      Some (outcome outputDir (ending reader) (res, st1)).
Proof.
  rewrite processFile_feed. 
  change (Build_State _ _ _ _ _ _ _) with (boot fs fl).
  pose proof (feed_consistent (lines (pending reader)) ∅ _ (consistent_boot fs fl)) as C.
  destruct (feed _ _ _ _ _) as [res st1]. by exists res, st1.
Qed.

(** A run stops with an answer, whatever the input and the faults. *)
Lemma processFile_total reader fs fl :
  is_Some (processFile reader config outputDir (boot fs fl)).
Proof. rewrite processFile_feed. eauto. Qed.

(** Where a run ends, the handles in [jsonlFiles] are still the handles
    that were opened. *)
Lemma processFile_filed reader fs fl e st' :
  processFile reader config outputDir (boot fs fl) = Some (e, st') →
  filed st' ∧ (e ≠ None → closed st' = []) ∧
  (e = None → NoDup (closed st') ∧ ∀ f, f ∈ closed st' ↔ f < length (opened st')).
Proof.
  destruct (processFile_cases reader fs fl) as (res & st1 & _ & C & ->).
  intros [= H]. revert H. unfold outcome.
  assert (∀ r, finish r outputDir st1 = (e, st') →
    filed st' ∧ (e ≠ None → closed st' = []) ∧
    (e = None → NoDup (closed st') ∧ ∀ f, f ∈ closed st' ↔ f < length (opened st')))
    as Hfin.
  { intros r. unfold finish.
    pose proof (write_consistent r outputDir st1 C) as C2.
    destruct (writeRecordToJSONL r outputDir st1) as [[u|err] st2]; cbn [snd] in C2.
    - intros [= <- <-]. destruct (closeAll_fields st2) as (_ & Ho & _ & _ & Hj & _).
      split_and!; [|done|].
      + unfold filed. rewrite Ho, Hj. apply C2.
      + intros _. rewrite Ho. by apply closeAll_once.
    - intros [= <- <-]. split_and!; [apply C2|intros _; apply C2|done]. }
  destruct res as [r|err].
  - destruct (ending reader); [apply Hfin|..];
      (intros [= <- <-]; split_and!; [apply C|intros _; apply C|done]).
  - intros [= <- <-]. split_and!; [apply C|intros _; apply C|done].
Qed.

(** A run on a stream that ends cleanly, with no fault scheduled: the
    loop, the last call of the router, and the closing of the handles. *)
Lemma processFile_clean input fs :
  ∃ r st1 st2,
    feed config outputDir (lines input) ∅ (boot fs []) = (inl r, st1) ∧
    consistent st1 ∧ faults st1 = [] ∧
    writeRecordToJSONL r outputDir st1 = (inl tt, st2) ∧
    consistent st2 ∧
    routed st2 = (build config <$> segments config (lines input)) ∧
    processFile {| pending := input; ending := EOF |} config outputDir (boot fs [])
      = Some (None, closeAll st2).
Proof.
  pose proof (consistent_boot fs []) as C0.
  destruct (feed_no_fault (lines input) ∅ (boot fs []) C0 eq_refl)
    as (r & st1 & Hfeed & Hfl).
  pose proof (feed_consistent (lines input) ∅ _ C0) as C1.
  rewrite Hfeed in C1. cbn [snd] in C1.
  destruct (write_no_fault r outputDir st1 C1 Hfl) as (st2 & Hw & _).
  pose proof (write_consistent r outputDir st1 C1) as C2.
  pose proof (write_routed r outputDir st1) as [Hr _].
  rewrite Hw in C2, Hr. cbn [snd] in C2, Hr.
  exists r, st1, st2. split_and!; try done.
  - rewrite Hr, (feed_routed _ _ _ _ _ Hfeed). cbn [routed boot app].
    apply emissions_empty.
  - rewrite processFile_feed.
    change (Build_State _ _ _ _ _ _ _) with (boot fs []).
    cbn [pending ending].
    rewrite Hfeed. cbn [outcome]. unfold finish. by rewrite Hw.
Qed.

Lemma write_single fs dest rs st record :
  single fs dest rs st → destination outputDir record = dest →
  ∃ st', writeRecordToJSONL record outputDir st = (inl tt, st') ∧
         single fs dest (rs ++ [record]) st'.
Proof.
  intros (C & Hfl & Hr & Hst) Hd.
  destruct (write_no_fault record outputDir st C Hfl) as (st' & Hw & Hfl').
  pose proof (write_consistent record outputDir st C) as C'.
  pose proof (write_routed record outputDir st) as [Hr' _].
  destruct (write_ok_effect record outputDir st _ _ C Hw) as (Hf & Ho & _ & _).
  rewrite Hw in C', Hr'. cbn [snd] in C', Hr'. rewrite Hd in Hf, Ho.
  exists st'. split; [done|]. split_and!; [done|done|by rewrite Hr', Hr|].
  destruct rs as [|x rs]; cbn [app].
  - destruct Hst as [Hop Hfs].
    assert (jsonlFiles st !! dest = None) as Hmiss.
    { destruct (jsonlFiles st !! dest) as [f|] eqn:E; [|done].
      apply C in E. by rewrite Hop in E. }
    rewrite Hmiss, Hop in Ho. rewrite Hfs in Hf. done.
  - destruct Hst as [Hop Hfs].
    assert (jsonlFiles st !! dest = Some 0) as Hhit.
    { apply C. by rewrite Hop. }
    rewrite Hhit, Hop in Ho. rewrite Hfs, lookup_insert_eq, insert_insert_eq in Hf.
    cbn [default from_option id] in Hf. rewrite <- app_assoc in Hf. done.
Qed.

Lemma feed_single fs dest ls record rs st r st' :
  single fs dest rs st →
  Forall (λ x, destination outputDir x = dest) (emissions config record ls) →
  feed config outputDir ls record st = (inl r, st') →
  ∃ rs', single fs dest rs' st' ∧ rs' ++ [r] = rs ++ emissions config record ls.
Proof.
  revert record rs st. induction ls as [|l ls IH]; intros record rs st S HE; cbn [feed].
  - intros [= <- <-]. by exists rs.
  - destruct (isRecordStart config l) eqn:E; cbn [negb].
    + rewrite emissions_start in * by done.
      apply Forall_cons in HE as [Hd HE].
      destruct (write_single _ _ _ _ _ S Hd) as (st1 & Hw & S1).
      unfold bind. rewrite Hw. intros H.
      destruct (IH _ _ _ S1 HE H) as (rs' & S' & Heq).
      exists rs'. split; [done|]. by rewrite Heq, <- app_assoc.
    + rewrite emissions_line in * by done. by apply IH.
Qed.

Lemma segments_no_start ls :
  Forall (Forall (λ l, isRecordStart config l = false)) (segments config ls).
Proof.
  induction ls as [|l ls IH]; cbn [segments].
  - by repeat constructor.
  - destruct (isRecordStart config l) eqn:E.
    + by constructor.
    + destruct (segments config ls) as [|seg segs]; [by repeat constructor|].
      apply Forall_cons in IH as [? ?]. by repeat constructor.
Qed.

Lemma segments_concat ls :
  concat (segments config ls) = filter (λ l, isRecordStart config l = false) ls.
Proof.
  induction ls as [|l ls IH]; cbn [segments]; [done|].
  destruct (isRecordStart config l) eqn:E.
  - rewrite filter_cons_False by (by rewrite E). done.
  - rewrite filter_cons_True by done. rewrite <- IH.
    pose proof (segments_nonempty ls).
    by destruct (segments config ls).
Qed.

Lemma segments_last_start ls l :
  last ls = Some l → isRecordStart config l = true →
  last (segments config ls) = Some [].
Proof.
  intros H E. apply last_Some in H as [ls' ->].
  rewrite segments_snoc_start by done. apply last_snoc.
Qed.

(** A run that an error of the router stops has handed over the first
    of the emissions only. *)
Lemma feed_routed_err ls record st e st' :
  feed config outputDir ls record st = (inr e, st') →
  routed st' `prefix_of` routed st ++ emissions config record ls.
Proof.
  revert record st. induction ls as [|l ls IH]; intros record st; cbn [feed]; [done|].
  destruct (isRecordStart config l) eqn:E; cbn [negb].
  - unfold bind. rewrite emissions_start by done.
    pose proof (write_routed record outputDir st) as [Hr _].
    destruct (writeRecordToJSONL record outputDir st) as [[u|err] st1];
      cbn [snd] in Hr.
    + intros H. apply IH in H. by rewrite Hr, <- app_assoc in H.
    + intros [= <- <-]. rewrite Hr.
      exists (emissions config ∅ ls). by rewrite <- app_assoc.
  - intros H. apply IH in H. by rewrite emissions_line.
Qed.

(** The records a run on a cleanly ending stream hands to the router,
    whatever the faults: the first of the expected records, and all of
    them when the run ends without error. *)
Lemma processFile_routed input fs fl :
  ∃ e st',
    processFile {| pending := input; ending := EOF |} config outputDir (boot fs fl)
      = Some (e, st') ∧
    routed st' `prefix_of` (build config <$> segments config (lines input)) ∧
    (e = None → routed st' = (build config <$> segments config (lines input))).
Proof.
  destruct (processFile_cases {| pending := input; ending := EOF |} fs fl)
    as (res & st1 & Hfeed & _ & ->).
  cbn [pending ending] in *. rewrite <- emissions_empty.
  destruct res as [r|err]; cbn [outcome].
  - pose proof (feed_routed _ _ _ _ _ Hfeed) as Hr. cbn [routed boot app] in Hr.
    unfold finish.
    pose proof (write_routed r outputDir st1) as [Hw _].
    destruct (writeRecordToJSONL r outputDir st1) as [[u|e] st2]; cbn [snd] in Hw.
    + exists None, (closeAll st2). split; [done|].
      destruct (closeAll_fields st2) as (_ & _ & -> & _).
      by rewrite Hw, Hr.
    + exists (Some e), st2. split; [done|]. by rewrite Hw, Hr.
  - exists (Some err), st1. split; [done|]. split; [|done].
    by apply feed_routed_err in Hfeed.
Qed.

(** The files after the loop, once the record in hand is routed as well,
    are the files before it with the emissions routed one after the
    other. *)
Lemma feed_files ls record st r st' :
  consistent st →
  feed config outputDir ls record st = (inl r, st') →
  route outputDir (files st') r
  = foldl (route outputDir) (files st) (emissions config record ls).
Proof.
  revert record st. induction ls as [|l ls IH]; intros record st C; cbn [feed].
  - intros [= <- <-]. by unfold emissions.
  - destruct (isRecordStart config l) eqn:E; cbn [negb].
    + unfold bind. rewrite emissions_start by done. cbn [foldl].
      pose proof (write_consistent record outputDir st C) as C1.
      pose proof (write_ok_effect record outputDir st) as Hw.
      destruct (writeRecordToJSONL record outputDir st) as [[u|err] st1]; [|done].
      destruct (Hw u st1 C eq_refl) as (Hf & _).
      intros H. apply IH in H; [|done]. by rewrite H, Hf.
    + intros H. rewrite emissions_line by done. by apply IH.
Qed.

(** The files a run that ends without error leaves. *)
Lemma processFile_files input fs fl :
  ∃ e st',
    processFile {| pending := input; ending := EOF |} config outputDir (boot fs fl)
      = Some (e, st') ∧
    (e = None →
     files st' = foldl (route outputDir) fs
                   (build config <$> segments config (lines input))).
Proof.
  destruct (processFile_cases {| pending := input; ending := EOF |} fs fl)
    as (res & st1 & Hfeed & C1 & ->).
  cbn [pending ending] in *. rewrite <- emissions_empty.
  destruct res as [r|err]; cbn [outcome]; [|by exists (Some err), st1].
  pose proof (feed_files _ _ _ _ _ (consistent_boot fs fl) Hfeed) as Hf.
  cbn [files boot] in Hf. unfold finish.
  pose proof (write_ok_effect r outputDir st1) as Hw.
  destruct (writeRecordToJSONL r outputDir st1) as [[u|e] st2];
    [|by exists (Some e), st2].
  destruct (Hw u st2 C1 eq_refl) as (Hf2 & _).
  exists None, (closeAll st2). split; [done|]. intros _.
  destruct (closeAll_fields st2) as (-> & _). by rewrite Hf2, <- Hf.
Qed.

End LoopFacts.
(** ** Reserved words *)

Section ReservedFacts.

Context {lib : Text}.

Lemma anyFold_exists words k :
  anyFold words k = true ↔ ∃ w, w ∈ words ∧ EqualFold w k = true.
Proof.
  induction words as [|w words IH]; cbn [anyFold].
  - split; [done|]. by intros (w & ?%elem_of_nil & _).
  - destruct (EqualFold w k) eqn:E.
    + split; [|done]. intros _. exists w. split; [apply list_elem_of_here|done].
    + rewrite IH. split.
      * intros (w' & ? & ?). exists w'. split; [by apply list_elem_of_further|done].
      * intros (w' & [->|?]%elem_of_cons & Hw); [congruence|by exists w'].
Qed.

End ReservedFacts.

(** ** ASCII text *)

Section ASCIIFacts.

Lemma asciiText_agrees : agreesOnASCII asciiText.
Proof. by split. Qed.

Lemma isASCII_app s t : isASCII (s +:+ t) = isASCII s && isASCII t.
Proof.
  induction s as [|c s IH]; [done|].
  change (String c s +:+ t) with (String c (s +:+ t)). cbn [isASCII].
  by rewrite IH, andb_assoc.
Qed.

Lemma isASCII_lines s :
  isASCII s = true → Forall (λ l, isASCII l = true) (lines s).
Proof.
  induction s as [|c s IH]; [by constructor|]. cbn [isASCII lines].
  intros [Hc Hs]%andb_true_iff. specialize (IH Hs).
  destruct (Ascii.eqb c LF).
  - constructor; [|done]. cbn [isASCII]. by rewrite Hc.
  - destruct (lines s) as [|l ls]; [by constructor|].
    apply Forall_cons in IH as [Hl Hls].
    constructor; [|done]. cbn [isASCII]. by rewrite Hc, Hl.
Qed.

Lemma isASCII_Split s sep :
  isASCII s = true → Forall (λ p, isASCII p = true) (Split s sep).
Proof.
  induction s as [|c s IH]; [by repeat constructor|]. cbn [isASCII Split].
  intros [Hc Hs]%andb_true_iff. specialize (IH Hs).
  destruct (Ascii.eqb c sep); [by constructor|].
  destruct (Split s sep) as [|p ps].
  { constructor; [|constructor]. cbn [isASCII]. by rewrite Hc. }
  apply Forall_cons in IH as [Hp Hps].
  constructor; [|done]. cbn [isASCII]. by rewrite Hc, Hp.
Qed.

Lemma isASCII_Join elems sep :
  Forall (λ p, isASCII p = true) elems → isASCII sep = true →
  isASCII (Join elems sep) = true.
Proof.
  intros H Hsep. induction elems as [|e elems IH]; [done|].
  apply Forall_cons in H as [He H]. specialize (IH H).
  destruct elems as [|e' elems]; [done|].
  change (Join (e :: e' :: elems) sep) with (e +:+ sep +:+ Join (e' :: elems) sep).
  by rewrite !isASCII_app, He, Hsep, IH.
Qed.

Context {lib : Text}.
Hypothesis agrees : agreesOnASCII lib.

(** A configuration whose reserved words are ASCII. *)
Lemma anyFold_ascii words key :
  forallb isASCII words = true → isASCII key = true →
  anyFold words key = anyFold (lib := asciiText) words key.
Proof.
  intros Hw Hk. induction words as [|w words IH]; [done|].
  cbn [forallb] in Hw. apply andb_true_iff in Hw as [Hw Hws].
  cbn [anyFold]. rewrite IH by done.
  by rewrite (proj2 agrees w key Hw Hk).
Qed.

Lemma isRecordStart_ascii config line :
  isASCII line = true →
  isRecordStart config line = isRecordStart (lib := asciiText) config line.
Proof.
  intros Hl. unfold isRecordStart. by rewrite (proj1 agrees line Hl).
Qed.

Lemma store_ascii config line record :
  forallb isASCII (ReservedWords config) = true → isASCII line = true →
  store config line record = store (lib := asciiText) config line record.
Proof.
  intros Hw Hl. unfold store, isReservedWord.
  pose proof (isASCII_Split line colon Hl) as Hp.
  assert (isASCII (hd "" (Split line colon)) = true) as Hk.
  { destruct (Split line colon); [done|]. by apply Forall_cons in Hp as [? _]. }
  assert (isASCII (Join (tl (Split line colon)) ":") = true) as Hv.
  { apply isASCII_Join; [|done].
    destruct (Split line colon); [done|]. by apply Forall_cons in Hp as [_ ?]. }
  by rewrite (anyFold_ascii _ _ Hw Hk), (proj1 agrees _ Hv).
Qed.

Lemma feed_ascii config outputDir ls record st :
  forallb isASCII (ReservedWords config) = true →
  Forall (λ l, isASCII l = true) ls →
  feed config outputDir ls record st
  = feed (lib := asciiText) config outputDir ls record st.
Proof.
  intros Hw. revert record st.
  induction ls as [|l ls IH]; intros record st H; [done|].
  apply Forall_cons in H as [Hl H]. cbn [feed].
  rewrite (isRecordStart_ascii config l Hl), (store_ascii config l record Hw Hl).
  destruct (negb _); [by apply IH|].
  unfold bind. destruct (writeRecordToJSONL record outputDir st) as [[u|e] st1]; [|done].
  by apply IH.
Qed.

(** A run on ASCII text, with reserved words in ASCII, is the run computed
    with the ASCII paths of the two functions. *)
Lemma processFile_ascii reader config outputDir st :
  forallb isASCII (ReservedWords config) = true →
  isASCII (pending reader) = true →
  processFile reader config outputDir st
  = processFile (lib := asciiText) reader config outputDir st.
Proof.
  intros Hw Hs. rewrite !processFile_feed.
  by rewrite (feed_ascii _ _ _ _ _ Hw (isASCII_lines _ Hs)).
Qed.

(** The same for what the properties below are worded with. *)
Lemma isReservedWord_ascii config key :
  forallb isASCII (ReservedWords config) = true → isASCII key = true →
  isReservedWord config key = isReservedWord (lib := asciiText) config key.
Proof. apply anyFold_ascii. Qed.

Lemma segments_ascii config ls :
  forallb isASCII ls = true →
  segments config ls = segments (lib := asciiText) config ls.
Proof.
  induction ls as [|l ls IH]; [done|]. cbn [forallb segments].
  intros [Hl Hls]%andb_true_iff.
  by rewrite (isRecordStart_ascii config l Hl), IH.
Qed.

Lemma recordStarts_ascii config ls :
  forallb isASCII ls = true →
  recordStarts config ls = recordStarts (lib := asciiText) config ls.
Proof.
  unfold recordStarts. induction ls as [|l ls IH]; [done|]. cbn [forallb].
  intros [Hl Hls]%andb_true_iff. specialize (IH Hls).
  pose proof (isRecordStart_ascii config l Hl) as E.
  rewrite !filter_cons. repeat case_decide; cbn [length]; congruence.
Qed.

Lemma buildFrom_ascii config record seg :
  forallb isASCII (ReservedWords config) = true →
  forallb isASCII seg = true →
  buildFrom config record seg = buildFrom (lib := asciiText) config record seg.
Proof.
  intros Hw. unfold buildFrom. revert record.
  induction seg as [|l seg IH]; intros record; [done|]. cbn [forallb foldl].
  intros [Hl Hseg]%andb_true_iff.
  rewrite (store_ascii config l record Hw Hl). by apply IH.
Qed.

Lemma endsOnRecordStart_ascii config s :
  isASCII s = true →
  endsOnRecordStart config s = endsOnRecordStart (lib := asciiText) config s.
Proof.
  intros Hs. unfold endsOnRecordStart.
  destruct (last (lines s)) as [l|] eqn:El; [|done].
  rewrite (isRecordStart_ascii config l); [done|].
  pose proof (isASCII_lines s Hs) as H. rewrite Forall_forall in H.
  apply H. by eapply last_Some_elem_of.
Qed.

End ASCIIFacts.

(** ** The ASCII paths of the two functions *)

Lemma TrimRight_idem s : TrimRight (TrimRight s) = TrimRight s.
Proof.
  induction s as [|c s IH]; [done|]. cbn [TrimRight].
  destruct (TrimRight s) as [|d t] eqn:E.
  - destruct (asciiSpace c) eqn:Ec; [done|]. cbn [TrimRight]. by rewrite Ec.
  - cbn [TrimRight]. cbn [TrimRight] in IH. by rewrite IH.
Qed.

Lemma TrimLeft_head s :
  match TrimLeft s with
  | EmptyString => True
  | String c _ => asciiSpace c = false
  end.
Proof.
  induction s as [|c s IH]; [done|]. cbn [TrimLeft].
  by destruct (asciiSpace c) eqn:E.
Qed.

Lemma TrimLeft_fixed s :
  match s with EmptyString => True | String c _ => asciiSpace c = false end →
  TrimLeft s = s.
Proof. destruct s as [|c s]; [done|]. cbn [TrimLeft]. by intros ->. Qed.

Lemma TrimRight_head s :
  match s with EmptyString => True | String c _ => asciiSpace c = false end →
  match TrimRight s with
  | EmptyString => True
  | String c _ => asciiSpace c = false
  end.
Proof.
  destruct s as [|c s]; [done|]. cbn [TrimRight]. intros Hc.
  destruct (TrimRight s); [by rewrite Hc|done].
Qed.

(** [strings.asciiTrimSpace] leaves a trimmed string as it is. *)
Lemma asciiTrimSpace_idem s : asciiTrimSpace (asciiTrimSpace s) = asciiTrimSpace s.
Proof.
  unfold asciiTrimSpace.
  rewrite (TrimLeft_fixed (TrimRight (TrimLeft s))).
  - apply TrimRight_idem.
  - apply TrimRight_head, TrimLeft_head.
Qed.

Lemma TrimRight_app_space s w :
  allSpace w = true → TrimRight (s +:+ w) = TrimRight s.
Proof.
  intros Hw. induction s as [|c s IH].
  - change ("" +:+ w) with w. induction w as [|d w IHw]; [done|].
    cbn [allSpace] in Hw. apply andb_true_iff in Hw as [Hd Hw].
    cbn [TrimRight]. by rewrite IHw, Hd.
  - change (String c s +:+ w) with (String c (s +:+ w)).
    cbn [TrimRight]. by rewrite IH.
Qed.

Lemma TrimLeft_allSpace w : allSpace w = true → TrimLeft w = "".
Proof.
  induction w as [|d w IH]; [done|]. cbn [allSpace TrimLeft].
  intros [-> Hw]%andb_true_iff. by apply IH.
Qed.

Lemma asciiTrimSpace_app_space s w :
  allSpace w = true → asciiTrimSpace (s +:+ w) = asciiTrimSpace s.
Proof.
  intros Hw. unfold asciiTrimSpace. induction s as [|c s IH].
  - change ("" +:+ w) with w. by rewrite TrimLeft_allSpace.
  - change (String c s +:+ w) with (String c (s +:+ w)). cbn [TrimLeft].
    destruct (asciiSpace c); [done|].
    by apply (TrimRight_app_space (String c s)).
Qed.

Lemma asciiTrimSpace_space_app w s :
  allSpace w = true → asciiTrimSpace (w +:+ s) = asciiTrimSpace s.
Proof.
  unfold asciiTrimSpace. induction w as [|d w IH]; [done|].
  cbn [allSpace]. intros [Hd Hw]%andb_true_iff.
  change (String d w +:+ s) with (String d (w +:+ s)). cbn [TrimLeft].
  rewrite Hd. by apply IH.
Qed.

Lemma asciiTrimSpace_empty s : asciiTrimSpace s = "" ↔ allSpace s = true.
Proof.
  unfold asciiTrimSpace. induction s as [|c s IH]; [done|]. cbn [TrimLeft allSpace].
  destruct (asciiSpace c) eqn:E; [by rewrite IH|]. cbn [andb TrimRight].
  split; [|done]. destruct (TrimRight s); [by rewrite E|done].
Qed.

Lemma every_byte (P : ascii → bool) :
  forallb P (ascii_of_nat <$> seq 0 256) = true → ∀ c, P c = true.
Proof.
  intros H c. rewrite forallb_forall in H. apply H.
  apply list_elem_of_In, list_elem_of_fmap. exists (nat_of_ascii c). split.
  - by rewrite ascii_nat_embedding.
  - apply elem_of_seq. pose proof (nat_ascii_bounded c). lia.
Qed.

(** Two bytes fold to each other exactly when they have the same
    lower-case form. *)
Lemma foldEq_lowerByte a b :
  foldEq a b = Ascii.eqb (lowerByte a) (lowerByte b).
Proof.
  apply Bool.eqb_prop. revert b. apply every_byte. revert a. apply every_byte.
  by vm_compute.
Qed.

Lemma allSpace_isASCII w : allSpace w = true → isASCII w = true.
Proof.
  induction w as [|c w IH]; [done|]. cbn [allSpace isASCII].
  intros [Hc Hw]%andb_true_iff. rewrite (IH Hw), andb_true_r.
  assert (implb (asciiSpace c) (nat_of_ascii c <? 128) = true) as Hi.
  { revert c Hc. intros c _. revert c. apply every_byte. by vm_compute. }
  by rewrite Hc in Hi.
Qed.

Lemma asciiEqualFold_ToLower s t : asciiEqualFold s t = true ↔ ToLower s = ToLower t.
Proof.
  revert t. induction s as [|a s IH]; intros [|b t]; cbn [asciiEqualFold ToLower]; try done.
  rewrite andb_true_iff, foldEq_lowerByte, Ascii.eqb_eq, IH. split.
  - by intros [-> ->].
  - by intros [= -> ->].
Qed.

(** * The properties of the specification *)

Section Properties.

Context {lib : Text}.

(** C1.  On the lines ["A:1\n"], ["---\n"], ["B:2\n"], with the record
    start ["---"] and the reserved words [A] and [B], a run with no fault
    hands the router two records and no more: first the one that maps [A]
    to ["1"], then, at the end of the stream, the one that maps [B] to
    ["2"].  The text is ASCII, so this holds for every [TrimSpace] and
    [EqualFold] that do on ASCII text what Go's do. *)
Theorem two_records_example outputDir fs :
  agreesOnASCII lib →
  lines inputAB = ["A:1" +:+ newline; "---" +:+ newline; "B:2" +:+ newline] ∧
  ∃ st', processFile (clean inputAB) configAB outputDir (boot fs [])
           = Some (None, st') ∧
         routed st' = [ {["A" := "1"]}; {["B" := "2"]} ].
Proof.
  intros H. split; [done|].
  rewrite (processFile_ascii H) by (by vm_compute).
  destruct (processFile_clean (lib := asciiText) configAB outputDir inputAB fs)
    as (r & st1 & st2 & _ & _ & _ & _ & _ & Hr & Hrun).
  exists (closeAll st2). split; [exact Hrun|].
  destruct (closeAll_fields st2) as (_ & _ & -> & _).
  rewrite Hr. by vm_compute.
Qed.

(** C2.  On a stream that ends cleanly, a run that ends without error
    has handed the router one record for each run of lines that a record
    start or the end of the stream closes, in order: the record built from
    that run of lines, also when the run is empty.  The runs are the lines
    that are no record start, cut at the record starts, so there is one
    for each record start and one for the end of the stream; a record
    start on the first line closes an empty run.  A run with no fault ends
    without error, and a run that a fault of the router stops has handed
    over the first of these records and nothing else. *)
Theorem every_boundary_emits config outputDir input fs :
  (∃ st', processFile (clean input) config outputDir (boot fs [])
            = Some (None, st') ∧
          routed st' = (build config <$> segments config (lines input))) ∧
  (∀ fl, ∃ e st',
     processFile (clean input) config outputDir (boot fs fl) = Some (e, st') ∧
     routed st' `prefix_of` (build config <$> segments config (lines input)) ∧
     (e = None → routed st' = (build config <$> segments config (lines input)))) ∧
  length (segments config (lines input)) = S (recordStarts config (lines input)) ∧
  concat (segments config (lines input))
    = filter (λ l, isRecordStart config l = false) (lines input) ∧
  Forall (Forall (λ l, isRecordStart config l = false))
    (segments config (lines input)) ∧
  ∀ l rest, isRecordStart config l = true →
    segments config (l :: rest) = [] :: segments config rest.
Proof.
  split_and!; [| | | |apply segments_no_start|].
  - destruct (processFile_clean config outputDir input fs)
      as (r & st1 & st2 & _ & _ & _ & _ & _ & Hr & Hrun).
    exists (closeAll st2). split; [exact Hrun|].
    by destruct (closeAll_fields st2) as (_ & _ & -> & _).
  - intros fl. apply processFile_routed.
  - apply segments_length.
  - apply segments_concat.
  - intros l rest E. cbn [segments]. by rewrite E.
Qed.

(** C7, amended.  On a stream that ends cleanly, a run that ends without
    error, as every run with no fault does, has yielded [N + 1] records
    for an input with [N] record starts, whether or not the stream ends
    right after the last record start; when it does, the last of these
    records is the empty one. *)
Theorem boundary_count config outputDir input fs :
  (∃ st', processFile (clean input) config outputDir (boot fs [])
            = Some (None, st')) ∧
  ∀ fl, ∃ e st',
    processFile (clean input) config outputDir (boot fs fl) = Some (e, st') ∧
    (e = None →
     length (routed st') = recordStarts config (lines input) + 1 ∧
     if endsOnRecordStart config input
     then last (routed st') = Some ∅
     else True).
Proof.
  split.
  { destruct (processFile_clean config outputDir input fs)
      as (r & st1 & st2 & _ & _ & _ & _ & _ & _ & Hrun). eauto. }
  intros fl.
  destruct (processFile_routed config outputDir input fs fl)
    as (e & st' & Hrun & _ & Hr).
  exists e, st'. split; [exact Hrun|]. intros ->. rewrite Hr by done.
  rewrite length_fmap, segments_length. split; [lia|].
  unfold endsOnRecordStart.
  destruct (String.eqb _ _); [|done]. cbn [andb].
  destruct (last (lines input)) as [l|] eqn:El; [|done].
  destruct (isRecordStart config l) eqn:E; [|done].
  by rewrite fmap_last, (segments_last_start config _ l).
Qed.

(** The two runs that part C7 as it is worded from the code.  With [N] the
    number of record starts, the input ["A:1\n---\n"] ends right after its
    only record start and still yields two records, not one.  With [N] the
    number of runs of lines between the record starts, the input of the
    first example does not end on a record start, has two runs and yields
    two records, not three.  Both inputs are ASCII text. *)
Lemma boundary_count_on_ascii :
  agreesOnASCII lib →
  (∃ st', processFile (clean ("A:1" +:+ newline +:+ "---" +:+ newline))
            configAB "data/output" (boot ∅ []) = Some (None, st') ∧
          endsOnRecordStart configAB ("A:1" +:+ newline +:+ "---" +:+ newline) = true ∧
          recordStarts configAB (lines ("A:1" +:+ newline +:+ "---" +:+ newline)) = 1 ∧
          routed st' = [ {["A" := "1"]}; ∅ ] ∧
          length (routed st') ≠ 1) ∧
  (∃ st', processFile (clean inputAB) configAB "data/output" (boot ∅ [])
            = Some (None, st') ∧
          endsOnRecordStart configAB inputAB = false ∧
          length (segments configAB (lines inputAB)) = 2 ∧
          length (routed st') ≠ 2 + 1).
Proof.
  intros H.
  rewrite !(processFile_ascii H), !(endsOnRecordStart_ascii H),
    (recordStarts_ascii H), (segments_ascii H) by (by vm_compute).
  split.
  - eexists. split; [by vm_compute|]. by vm_compute.
  - eexists. split; [by vm_compute|]. by vm_compute.
Qed.

(** C10.  The bytes after the last line feed of the input take no part in
    the run: the run on the input ends, and it is the run on the input cut
    after its last line feed, with the same answer and the same final
    state (records handed to the router, files, handles), however the
    stream ends and whatever the faults. *)
Theorem unterminated_tail_discarded config outputDir input e st :
  (∃ res,
     processFile {| pending := input; ending := e |} config outputDir st = Some res ∧
     processFile {| pending := completePart input; ending := e |} config outputDir st
       = Some res) ∧
  ∃ tail, input = completePart input +:+ tail ∧ contains tail LF = false.
Proof.
  split; [|apply completePart_split].
  rewrite !processFile_feed. cbn [pending ending].
  rewrite lines_completePart. eauto.
Qed.

(** What [store] does, by the kind of line. *)
Lemma store_field config line record :
  contains line colon = true →
  isReservedWord config (before line colon) = true →
  ∃ remainder, after line colon = Some remainder ∧
    store config line record = <[before line colon := TrimSpace remainder]> record.
Proof.
  intros Hc Hr. destruct (after_contains _ _ Hc) as [remainder Ha].
  exists remainder. split; [done|]. unfold store.
  rewrite Split_length, Split_hd, Hc, Hr. cbn [andb].
  by rewrite <- (Split_tl line colon remainder Ha).
Qed.

Lemma store_body config line record :
  contains line colon = false ∨ isReservedWord config (before line colon) = false →
  store config line record = <["data" := get record "data" +:+ line]> record.
Proof.
  intros H. unfold store. rewrite Split_length, Split_hd.
  destruct H as [-> | ->]; [done|]. by rewrite andb_false_r.
Qed.

(** One turn of the loop on a line that is no record start. *)
Lemma scan_line config outputDir fuel reader record st line rest :
  cut (pending reader) = Some (line, rest) →
  isRecordStart config line = false →
  scan (S fuel) config outputDir reader record st
  = scan fuel config outputDir {| pending := rest; ending := ending reader |}
      (store config line record) st.
Proof.
  intros Hcut Hs. cbn [scan]. unfold ReadString. by rewrite Hcut, Hs.
Qed.

Lemma cut_newline s line rest :
  cut s = Some (line, rest) → ∃ body, line = body +:+ newline.
Proof.
  revert line. induction s as [|c s IH]; intros line; cbn [cut]; [done|].
  destruct (Ascii.eqb c LF) eqn:E.
  - intros [= <- _]. exists "". apply Ascii.eqb_eq in E as ->. done.
  - destruct (cut s) as [[l r]|]; [|done].
    intros [= <- <-]. destruct (IH l eq_refl) as [body ->].
    by exists (String c body).
Qed.

(** C3.  A line that the reader returns, that is no record start, that
    has a colon, and whose text before the first colon is a reserved word
    up to the case of its letters ([EqualFold]): the loop goes on with the
    record in which that text, as the line spells it, maps to the text
    after the first colon, trimmed ([TrimSpace]); nothing else changes.
    With the reserved word [WARC-Type], the line ["warc-type: response"]
    gives the field [warc-type] the value ["response"]; the example is
    ASCII text, where [TrimSpace] and [EqualFold] are taken to do what
    Go's do. *)
Theorem field_line_stored :
  (∀ config outputDir fuel reader record st line rest,
     cut (pending reader) = Some (line, rest) →
     isRecordStart config line = false →
     contains line colon = true →
     isReservedWord config (before line colon) = true →
     ∃ remainder, after line colon = Some remainder ∧
       scan (S fuel) config outputDir reader record st
       = scan fuel config outputDir {| pending := rest; ending := ending reader |}
           (<[before line colon := TrimSpace remainder]> record) st) ∧
  (agreesOnASCII lib →
   store configWarcType "warc-type: response" ∅ = {["warc-type" := "response"]} ∧
   ∃ st', processFile (clean ("warc-type: response" +:+ newline))
            configWarcType "data/output" (boot ∅ []) = Some (None, st') ∧
          routed st' = [ {["warc-type" := "response"]} ]).
Proof.
  split.
  - intros config outputDir fuel reader record st line rest Hcut Hs Hc Hr.
    destruct (store_field config line record Hc Hr) as (remainder & Ha & Hst).
    exists remainder. split; [done|]. rewrite <- Hst. by apply scan_line.
  - intros H. split.
    + rewrite (store_ascii H) by (by vm_compute). by vm_compute.
    + rewrite (processFile_ascii H) by (by vm_compute).
      eexists. split; by vm_compute.
Qed.

(** C4.  A line that the reader returns, that is no record start, and
    that has no colon or has before its first colon a text that is no
    reserved word ([EqualFold] equates it with none): the loop goes on
    with the record in which ["data"] holds what it held followed by the
    whole line, line feed included and untrimmed; every other key keeps
    its value.  With the reserved word [A] alone, the line ["B: 2\n"]
    leaves ["B: 2\n"] under ["data"] and no field; the example is ASCII
    text, where [TrimSpace] and [EqualFold] are taken to do what Go's
    do. *)
Theorem body_line_appended :
  (∀ config outputDir fuel reader record st line rest,
     cut (pending reader) = Some (line, rest) →
     isRecordStart config line = false →
     contains line colon = false ∨ isReservedWord config (before line colon) = false →
     let record' := <["data" := get record "data" +:+ line]> record in
     scan (S fuel) config outputDir reader record st
     = scan fuel config outputDir {| pending := rest; ending := ending reader |}
         record' st ∧
     (∀ k, k ≠ "data" → record' !! k = record !! k) ∧
     ∃ body, line = body +:+ newline) ∧
  (agreesOnASCII lib →
   ∃ st', processFile (clean ("B: 2" +:+ newline)) configA "data/output" (boot ∅ [])
            = Some (None, st') ∧
          routed st' = [ {["data" := "B: 2" +:+ newline]} ]).
Proof.
  split.
  - intros config outputDir fuel reader record st line rest Hcut Hs Hb record'.
    split_and!.
    + unfold record'. rewrite <- (store_body config line record Hb).
      by apply scan_line.
    + intros k Hk. unfold record'. by rewrite lookup_insert_ne.
    + by eapply cut_newline.
  - intros H. rewrite (processFile_ascii H) by (by vm_compute).
    eexists. split; by vm_compute.
Qed.

(** A line writes the key [target] names, and no other. *)
Lemma store_other config line record k :
  target config line ≠ k → store config line record !! k = record !! k.
Proof.
  unfold target, store.
  destruct (_ && _); intros H; by rewrite lookup_insert_ne.
Qed.

Lemma buildFrom_other config record seg k :
  Forall (λ l, target config l ≠ k) seg →
  buildFrom config record seg !! k = record !! k.
Proof.
  unfold buildFrom. revert record.
  induction seg as [|l seg IH]; intros record H; cbn [foldl]; [done|].
  apply Forall_cons in H as [Hl H].
  by rewrite IH, store_other.
Qed.

(** C8, amended.  When a reserved field occurs on several field lines of
    one record under the same spelling, the last occurrence wins: after
    the lines of the record, the key spelled as on that line holds the
    trimmed text after the first colon of the last line that writes it,
    and building the record raises no error.  A field line changes no key
    but the one it spells, so occurrences that differ in the case of their
    letters are kept as separate entries. *)
Theorem last_occurrence_wins :
  (∀ config record earlier line later,
     contains line colon = true →
     isReservedWord config (before line colon) = true →
     Forall (λ l, target config l ≠ before line colon) later →
     ∃ remainder, after line colon = Some remainder ∧
       buildFrom config record (earlier ++ line :: later) !! before line colon
       = Some (TrimSpace remainder)) ∧
  (∀ config record line k,
     contains line colon = true →
     isReservedWord config (before line colon) = true →
     k ≠ before line colon →
     store config line record !! k = record !! k).
Proof.
  split.
  - intros config record earlier line later Hc Hr Hl.
    unfold buildFrom. rewrite foldl_app. cbn [foldl].
    destruct (store_field config line (foldl (λ r l, store config l r) record earlier) Hc Hr)
      as (remainder & Ha & ->).
    exists remainder. split; [done|].
    fold (buildFrom config (<[before line colon := TrimSpace remainder]>
             (foldl (λ r l, store config l r) record earlier)) later).
    rewrite buildFrom_other by done. apply lookup_insert_eq.
  - intros config record line k Hc Hr Hk.
    destruct (store_field config line record Hc Hr) as (remainder & _ & ->).
    by rewrite lookup_insert_ne.
Qed.

(** The run that parts C8 as it is worded from the code.  With the
    reserved word [A], the lines ["a: 1\n"] and ["A: 2\n"] are two
    occurrences of the reserved field, spelled with different case; the
    record keeps both, each under its own spelling, and the first value is
    not replaced.  The lines are ASCII text. *)
Lemma last_occurrence_on_ascii :
  agreesOnASCII lib →
  isReservedWord configA "a" = true ∧ isReservedWord configA "A" = true ∧
  build configA ["a: 1" +:+ newline; "A: 2" +:+ newline]
    = {["a" := "1"; "A" := "2"]} ∧
  size (build configA ["a: 1" +:+ newline; "A: 2" +:+ newline]) ≠ 1 ∧
  build configA ["a: 1" +:+ newline; "A: 2" +:+ newline] !! "a" = Some "1" ∧
  ∃ st', processFile (clean ("a: 1" +:+ newline +:+ "A: 2" +:+ newline))
           configA "data/output" (boot ∅ []) = Some (None, st') ∧
         routed st' = [ {["a" := "1"; "A" := "2"]} ].
Proof.
  intros H. unfold build.
  rewrite !(isReservedWord_ascii H), !(buildFrom_ascii H),
    (processFile_ascii H) by (by vm_compute).
  split_and!; try by vm_compute.
  eexists. split; by vm_compute.
Qed.

(** C9: the code does not do what the claim says on the error path.  A
    stream that fails after the line ["---\n"], and a write that fails on
    the second record, both end the run with the error and with the
    handle of [data/output/eng/output.jsonl] open: [Close] was never
    called.  The text is ASCII, where [TrimSpace] and [EqualFold] are
    taken to do what Go's do. *)
Theorem handles_left_open_on_error :
  agreesOnASCII lib →
  (∃ st', processFile {| pending := "---" +:+ newline; ending := ErrRead |}
            configAB "data/output" (boot ∅ []) = Some (Some ErrRead, st') ∧
          opened st' = ["data/output/eng/output.jsonl"] ∧ closed st' = []) ∧
  (∃ st', processFile (clean ("---" +:+ newline +:+ "---" +:+ newline))
            configAB "data/output" (boot ∅ [false; false; true])
            = Some (Some ErrWrite, st') ∧
          opened st' = ["data/output/eng/output.jsonl"] ∧ closed st' = []).
Proof.
  intros H. rewrite !(processFile_ascii H) by (by vm_compute).
  split; eexists; split; by vm_compute.
Qed.

(** What holds of [Close] on every run: a run that ends without error
    has closed each handle it opened once; a run that ends with an error
    has closed none. *)
Lemma close_by_outcome config outputDir reader fs fl e st' :
  processFile reader config outputDir (boot fs fl) = Some (e, st') →
  (e = None → NoDup (closed st') ∧ ∀ f, f ∈ closed st' ↔ f < length (opened st')) ∧
  (e ≠ None → closed st' = []).
Proof.
  intros H. apply processFile_filed in H as (_ & ? & ?). done.
Qed.

(** ** The router, claim by claim *)

(** C5.  A call of the router that succeeds adds the record, as one line,
    at the end of the file at the destination of the record, and changes
    no other file; so a run that ends without error leaves the files it
    found with the records added, each at its destination, in the order
    in which they were routed.  The destination is the output root, the
    routing key and [output.jsonl] joined as paths; for a root and a key
    made of plain names that is the three joined by slashes.  The routing
    key is the value of the language field with each comma turned into an
    underscore, and ["eng"] when the field is missing or empty: a record
    without the field goes to [eng/output.jsonl], one with the value
    ["eng,fra"] to [eng_fra/output.jsonl]. *)
Theorem routed_by_language :
  (∀ record outputDir st u st',
     consistent st →
     writeRecordToJSONL record outputDir st = (inl u, st') →
     files st' = route outputDir (files st) record) ∧
  (∀ config outputDir input fs fl,
     ∃ e st',
       processFile (clean input) config outputDir (boot fs fl) = Some (e, st') ∧
       (e = None →
        files st' = foldl (route outputDir) fs
                      (build config <$> segments config (lines input)))) ∧
  (∀ outputRoot fs record p,
     p ≠ destination outputRoot record →
     route outputRoot fs record !! p = fs !! p) ∧
  (∀ outputRoot fs record,
     route outputRoot fs record !! destination outputRoot record
     = Some (default [] (fs !! destination outputRoot record) ++ [record])) ∧
  (∀ record,
     routingKey record =
       if String.eqb (get record languageField) "" then "eng"
       else ReplaceAll (get record languageField) "," "_") ∧
  (∀ record root,
     plain (routingKey record) = true →
     Forall (λ e, plain e = true) root →
     destination (Join root "/") record
     = Join (root ++ [routingKey record; "output.jsonl"]) "/") ∧
  destination "" ∅ = "eng/output.jsonl" ∧
  destination "" {[languageField := "eng,fra"]} = "eng_fra/output.jsonl" ∧
  destination "data/output" {["data" := "text"]} = "data/output/eng/output.jsonl" ∧
  destination "data/output" {[languageField := "eng,fra"]}
    = "data/output/eng_fra/output.jsonl".
Proof.
  split; [|split; [|split; [|split; [|split; [|split]]]]].
  - intros record outputDir st u st' C Hw.
    by destruct (write_ok_effect record outputDir st u st' C Hw) as (-> & _).
  - intros config outputDir input fs fl. apply processFile_files.
  - intros outputRoot fs record p Hp. unfold route. by rewrite lookup_insert_ne.
  - intros outputRoot fs record. unfold route. by rewrite lookup_insert_eq.
  - intros record. unfold routingKey, get.
    by destruct (record !! languageField) as [[|c v]|].
  - intros record root. apply destination_plain.
  - split_and!; by vm_compute.
Qed.

Lemma write_hit record outputDir st :
  is_Some (jsonlFiles st !! destination outputDir record) →
  opened (writeRecordToJSONL record outputDir st).2 = opened st ∧
  jsonlFiles (writeRecordToJSONL record outputDir st).2 = jsonlFiles st.
Proof.
  intros [f Hf]. rewrite write_shape. cbn zeta. rewrite Hf.
  unfold Encode. cbn [faults opened closed files jsonlFiles dirs routed].
  repeat match goal with
         | |- context [match ?x with _ => _ end] => destruct x
         end; done.
Qed.

(** A run with no fault all of whose records have the destination [dest]. *)
Lemma processFile_single config outputDir input fs dest :
  Forall (λ r, destination outputDir r = dest)
    (build config <$> segments config (lines input)) →
  ∃ st', processFile (clean input) config outputDir (boot fs []) = Some (None, st') ∧
         opened st' = [dest] ∧
         files st' =
           <[dest := default [] (fs !! dest)
                     ++ (build config <$> segments config (lines input))]> fs.
Proof.
  intros HE.
  destruct (processFile_clean config outputDir input fs)
    as (r & st1 & st2 & Hfeed & _ & _ & Hw & _ & _ & Hrun).
  rewrite <- emissions_empty in *.
  assert (single fs dest [] (boot fs [])) as S0.
  { split_and!; [apply consistent_boot|done..]. }
  destruct (feed_single config outputDir fs dest _ _ _ _ _ _ S0 HE Hfeed)
    as (rs & S1 & Heq).
  cbn [app] in Heq.
  assert (destination outputDir r = dest) as Hd.
  { rewrite <- Heq in HE. apply Forall_app in HE as [_ HE].
    exact (proj1 (Forall_singleton _ _) HE). }
  destruct (write_single outputDir fs dest rs st1 r S1 Hd) as (st2' & Hw' & S2).
  rewrite Hw in Hw'. injection Hw' as <-.
  exists (closeAll st2). split; [exact Hrun|].
  destruct (closeAll_fields st2) as (-> & -> & _).
  destruct S2 as (_ & _ & _ & S2). rewrite Heq in S2.
  destruct (emissions config ∅ (lines input)) as [|x E] eqn:EE; [|done].
  by destruct rs.
Qed.

(** C6.  In every run, however it ends, no path is opened twice.  A call
    of the router that finds a handle filed under the destination opens
    nothing and leaves [jsonlFiles] as it is; one that finds none and
    succeeds has opened the destination once and filed the new handle
    under it.  So a run with no fault whose records all have the same
    destination opens that file once, and the file holds what it held
    before followed by the records, one line each, in the order in which
    they were routed. *)
Theorem each_destination_opened_once :
  (∀ config outputDir reader fs fl,
     ∃ e st', processFile reader config outputDir (boot fs fl) = Some (e, st') ∧
              NoDup (opened st')) ∧
  (∀ record outputDir st,
     is_Some (jsonlFiles st !! destination outputDir record) →
     opened (writeRecordToJSONL record outputDir st).2 = opened st ∧
     jsonlFiles (writeRecordToJSONL record outputDir st).2 = jsonlFiles st) ∧
  (∀ record outputDir st u st',
     consistent st →
     jsonlFiles st !! destination outputDir record = None →
     writeRecordToJSONL record outputDir st = (inl u, st') →
     opened st' = opened st ++ [destination outputDir record] ∧
     jsonlFiles st' !! destination outputDir record = Some (length (opened st))) ∧
  (∀ config outputDir input fs dest,
     Forall (λ r, destination outputDir r = dest)
       (build config <$> segments config (lines input)) →
     ∃ st', processFile (clean input) config outputDir (boot fs [])
              = Some (None, st') ∧
            opened st' = [dest] ∧
            files st' =
              <[dest := default [] (fs !! dest)
                        ++ (build config <$> segments config (lines input))]> fs).
Proof.
  split_and!.
  - intros config outputDir reader fs fl.
    destruct (processFile_total config outputDir reader fs fl) as [[e st'] H].
    exists e, st'. split; [done|].
    apply processFile_filed in H as [F _]. by apply filed_NoDup.
  - apply write_hit.
  - intros record outputDir st u st' C Hmiss Hw.
    destruct (write_ok_effect record outputDir st u st' C Hw) as (_ & Ho & _ & _).
    rewrite Hmiss in Ho. split; [done|].
    pose proof (write_consistent record outputDir st C) as [F _].
    rewrite Hw in F. cbn [snd] in F. apply F. rewrite Ho.
    by rewrite lookup_app_r, Nat.sub_diag.
  - apply processFile_single.
Qed.

(** * Further properties of the code *)

(** ** The record of a run of lines *)

Lemma isField_spec config line :
  isField config line = contains line colon && isReservedWord config (before line colon).
Proof. unfold isField. by rewrite Split_length, Split_hd. Qed.

Lemma target_isField config line :
  target config line = if isField config line then before line colon else "data".
Proof. unfold target, isField. by rewrite Split_hd. Qed.

Lemma store_isField config line record :
  store config line record =
  if isField config line
  then <[before line colon := TrimSpace (Join (tl (Split line colon)) ":")]> record
  else <["data" := get record "data" +:+ line]> record.
Proof. unfold store, isField. by rewrite Split_hd. Qed.

Lemma store_dom config line (record : Rec) :
  dom (store config line record) = {[target config line]} ∪ dom record.
Proof.
  rewrite store_isField, target_isField.
  destruct (isField config line); apply dom_insert_L.
Qed.

Lemma buildFrom_dom config (record : Rec) seg :
  dom (buildFrom config record seg)
  = dom record ∪ list_to_set (target config <$> seg).
Proof.
  unfold buildFrom. revert record.
  induction seg as [|l seg IH]; intros record; cbn [foldl fmap list_fmap list_to_set].
  - set_solver.
  - rewrite IH, store_dom. set_solver.
Qed.

Lemma glue_app ls ls' : glue (ls ++ ls') = glue ls +:+ glue ls'.
Proof.
  induction ls as [|l ls IH]; [done|]. cbn [app]. unfold glue in *. cbn [foldr].
  by rewrite IH, append_assoc.
Qed.

(** When no field line is spelled [data], the body of a record is what it
    was followed by the lines that are no field lines. *)
Lemma buildFrom_body config record seg :
  Forall (λ l, isField config l = true → before l colon ≠ "data") seg →
  get (buildFrom config record seg) "data"
  = get record "data" +:+ glue (filter (λ l, isField config l = false) seg).
Proof.
  unfold buildFrom. revert record.
  induction seg as [|l seg IH]; intros record H; cbn [foldl].
  - unfold glue. cbn. 
    induction (get record "data") as [|c s IHs]; [done|].
    change (String c s = String c (s +:+ "")). by f_equal.
  - apply Forall_cons in H as [Hl H]. rewrite IH by done.
    rewrite store_isField. destruct (isField config l) eqn:E.
    + rewrite filter_cons_False by (by rewrite E).
      unfold get at 1. by rewrite lookup_insert_ne by (by apply Hl).
    + rewrite filter_cons_True by done.
      unfold get at 1. rewrite lookup_insert_eq. cbn [default from_option id].
      unfold glue. cbn [foldr]. by rewrite append_assoc.
Qed.

Lemma reserved_data config l :
  isReservedWord config "data" = false →
  isField config l = true → before l colon ≠ "data".
Proof.
  intros Hd. rewrite isField_spec. intros [_ Hr]%andb_true_iff Heq.
  rewrite Heq in Hr. congruence.
Qed.

Lemma trimmed_values config (record : Rec) seg :
  (∀ s, TrimSpace (TrimSpace s) = TrimSpace s) →
  (∀ k v, k ≠ "data" → record !! k = Some v → TrimSpace v = v) →
  ∀ k v, k ≠ "data" → buildFrom config record seg !! k = Some v → TrimSpace v = v.
Proof.
  intros Hidem. unfold buildFrom. revert record.
  induction seg as [|l seg IH]; intros record H; cbn [foldl]; [done|].
  apply IH. intros k v Hk. rewrite store_isField.
  destruct (isField config l).
  - destruct (decide (before l colon = k)) as [<-|Hne].
    + rewrite lookup_insert_eq. intros [= <-]. apply Hidem.
    + rewrite lookup_insert_ne by done. by apply H.
  - rewrite lookup_insert_ne by done. by apply H.
Qed.

Lemma isRecordStart_trimmed config line :
  (∀ s, TrimSpace (TrimSpace s) = TrimSpace s) →
  isRecordStart config line = true →
  TrimSpace (RecordStart config) = RecordStart config.
Proof.
  intros Hidem. unfold isRecordStart. intros <-%String.eqb_eq. apply Hidem.
Qed.

Lemma segments_no_starts config ls :
  Forall (λ l, isRecordStart config l = false) ls → segments config ls = [ls].
Proof.
  induction ls as [|l ls IH]; [done|]. intros [Hl H]%Forall_cons.
  cbn [segments]. by rewrite Hl, IH.
Qed.

Lemma lines_nil s : lines s = [] ↔ contains s LF = false.
Proof.
  split; [|apply lines_contains].
  induction s as [|c s IH]; [done|]. cbn [lines contains].
  destruct (Ascii.eqb c LF); [done|]. cbn [orb].
  destruct (lines s); [by intros _; apply IH|done].
Qed.

(** The complete lines of an input, one after the other, are the input up
    to its last line feed. *)
Lemma glue_lines s : glue (lines s) = completePart s.
Proof.
  induction s as [|c s IH]; [done|]. cbn [lines completePart contains].
  destruct (Ascii.eqb c LF) eqn:Ec; cbn [orb].
  - unfold glue in *. cbn [foldr]. by rewrite IH.
  - destruct (lines s) as [|l ls] eqn:El.
    + apply lines_nil in El. by rewrite El.
    + assert (contains s LF = true) as ->.
      { destruct (contains s LF) eqn:E; [done|]. apply lines_nil in E. congruence. }
      unfold glue in *. cbn [foldr] in *.
      change (String c l +:+ ?t) with (String c (l +:+ t)). by rewrite IH.
Qed.

Lemma buildFrom_bodies config (record : Rec) seg :
  seg ≠ [] →
  Forall (λ l, isField config l = false) seg →
  buildFrom config record seg = <["data" := get record "data" +:+ glue seg]> record.
Proof.
  unfold buildFrom. revert record.
  induction seg as [|l seg IH]; [done|]. intros record _ [Hl H]%Forall_cons.
  cbn [foldl]. rewrite store_isField, Hl.
  destruct seg as [|l' seg].
  - cbn [foldl]. unfold glue. cbn [foldr].
    do 2 f_equal. clear. induction l as [|c l IHl]; [done|].
    change (String c l = String c (l +:+ "")). by f_equal.
  - rewrite IH by done. unfold get at 1. rewrite lookup_insert_eq.
    cbn [default from_option id]. rewrite insert_insert_eq.
    unfold glue. cbn [foldr]. by rewrite append_assoc.
Qed.

(** ** Files *)

Lemma extends_refl fs : extends fs fs.
Proof. intros p old H. exists []. by rewrite app_nil_r. Qed.

Lemma extends_trans fs1 fs2 fs3 : extends fs1 fs2 → extends fs2 fs3 → extends fs1 fs3.
Proof.
  intros H12 H23 p old H. destruct (H12 p old H) as [n1 H1].
  destruct (H23 p _ H1) as [n2 H2]. exists (n1 ++ n2). by rewrite app_assoc.
Qed.

Lemma extends_insert (fs : gmap string (list Rec)) p new :
  extends fs (<[p := default [] (fs !! p) ++ new]> fs).
Proof.
  intros q old H. destruct (decide (p = q)) as [<-|Hne].
  - rewrite lookup_insert_eq, H. by exists new.
  - rewrite lookup_insert_ne by done. exists []. by rewrite app_nil_r.
Qed.

Lemma Encode_extends f record st :
  extends (files st) (files (Encode f record st).2).
Proof.
  unfold Encode. destruct (fails st); [apply extends_refl|].
  destruct (opened st !! f); [|apply extends_refl].
  destruct (bool_decide _); [apply extends_refl|]. apply extends_insert.
Qed.

Lemma write_extends record outputDir st :
  extends (files st) (files (writeRecordToJSONL record outputDir st).2).
Proof.
  rewrite write_shape. cbn zeta.
  destruct (jsonlFiles st !! destination outputDir record).
  - apply (Encode_extends _ _ (Build_State _ _ _ _ _ _ _)).
  - unfold OpenFile, fails. cbn [faults opened closed files jsonlFiles dirs routed].
    destruct (hd false (faults st)); [apply extends_refl|].
    eapply extends_trans; [|apply (Encode_extends _ _ (Build_State _ _ _ _ _ _ _))].
    cbn [files].
    pose proof (extends_insert (files st) (destination outputDir record) []) as H.
    by rewrite app_nil_r in H.
Qed.

Lemma feed_extends config outputDir ls record st :
  extends (files st) (files (feed config outputDir ls record st).2).
Proof.
  revert record st. induction ls as [|l ls IH]; intros record st; cbn [feed].
  - apply extends_refl.
  - destruct (negb (isRecordStart config l)); [apply IH|].
    unfold bind. pose proof (write_extends record outputDir st) as H.
    destruct (writeRecordToJSONL record outputDir st) as [[u|e] st1]; [|done].
    eapply extends_trans; [exact H|apply IH].
Qed.

Lemma foldl_route_lookup outputDir fs rs p :
  default [] (foldl (route outputDir) fs rs !! p)
  = default [] (fs !! p) ++ filter (λ r, destination outputDir r = p) rs.
Proof.
  revert fs. induction rs as [|r rs IH]; intros fs; cbn [foldl].
  - by rewrite app_nil_r.
  - rewrite IH. unfold route.
    destruct (decide (destination outputDir r = p)) as [<-|Hne].
    + rewrite lookup_insert_eq, filter_cons_True by done.
      cbn [default from_option id]. by rewrite <- app_assoc.
    + by rewrite lookup_insert_ne, filter_cons_False by done.
Qed.

Lemma foldl_route_dom outputDir (fs : gmap string (list Rec)) rs :
  dom (foldl (route outputDir) fs rs)
  = dom fs ∪ list_to_set (destination outputDir <$> rs).
Proof.
  revert fs. induction rs as [|r rs IH]; intros fs;
    cbn [foldl fmap list_fmap list_to_set].
  - set_solver.
  - rewrite IH. unfold route. rewrite dom_insert_L. set_solver.
Qed.

(** ** The properties *)

(** X1.  [isReservedWord] answers [true] exactly when [EqualFold]
    equates some reserved word with the key.  [EqualFold] being symmetric
    and transitive, as equality up to case is, two keys that it equates
    get the same answer.  On ASCII text, where [EqualFold] is taken to do
    what Go's does, the answer is [true] exactly when some reserved word
    and the key are the same once their upper-case ASCII letters are
    turned into lower-case ones. *)
Theorem reserved_up_to_case config key :
  (isReservedWord config key = true
   ↔ ∃ word, word ∈ ReservedWords config ∧ EqualFold word key = true) ∧
  ((∀ a b, EqualFold a b = true → EqualFold b a = true) →
   (∀ a b c, EqualFold a b = true → EqualFold b c = true → EqualFold a c = true) →
   ∀ key', EqualFold key key' = true →
     isReservedWord config key' = isReservedWord config key) ∧
  (agreesOnASCII lib →
   forallb isASCII (ReservedWords config) = true → isASCII key = true →
   (isReservedWord config key = true
    ↔ ∃ word, word ∈ ReservedWords config ∧ ToLower word = ToLower key)).
Proof.
  split_and!; [apply anyFold_exists| |].
  - intros Hsym Htrans key' H. apply Bool.eq_iff_eq_true.
    unfold isReservedWord. rewrite !anyFold_exists.
    split; intros (w & Hw & He); exists w; (split; [done|]).
    + apply (Htrans _ key'); [done|by apply Hsym].
    + by apply (Htrans _ key).
  - intros H Hw Hk. rewrite (isReservedWord_ascii H) by done.
    unfold isReservedWord. rewrite (anyFold_exists (lib := asciiText)).
    split; intros (w & Hin & He); exists w; (split; [done|]);
      by apply asciiEqualFold_ToLower.
Qed.

(** X2.  The keys of the record a run of lines builds are the keys its
    lines write, on top of the keys it started with: the text before the
    first colon for each field line, and ["data"] as soon as there is a
    line that is no field line.  A record built from no line has no key,
    and one built from field lines only has no ["data"] key. *)
Theorem record_keys config (record : Rec) seg :
  dom (buildFrom config record seg)
  = dom record ∪ list_to_set (target config <$> seg) ∧
  build config [] = ∅ ∧
  (Forall (λ l, isField config l = true ∧ before l colon ≠ "data") seg →
   build config seg !! "data" = None).
Proof.
  split_and!; [apply buildFrom_dom|done|].
  intros H. apply not_elem_of_dom. unfold build. rewrite buildFrom_dom.
  rewrite dom_empty_L, union_empty_l_L, elem_of_list_to_set, list_elem_of_fmap.
  intros (l & Ht & Hl). rewrite Forall_forall in H.
  destruct (H l Hl) as [Hf Hne]. rewrite target_isField, Hf in Ht. congruence.
Qed.

(** X3.  When ["data"] is no reserved word, the body of a record is the
    lines of its run that are no field lines, whole and in order, with
    nothing between them; field lines in between do not disturb it. *)
Theorem body_is_the_body_lines config seg :
  isReservedWord config "data" = false →
  get (build config seg) "data"
  = glue (filter (λ l, isField config l = false) seg).
Proof.
  intros Hd. unfold build. rewrite buildFrom_body; [done|].
  apply Forall_forall. intros l _. by apply reserved_data.
Qed.

(** X4.  When ["data"] is a reserved word, a field line spelled [data]
    replaces the body gathered so far by its own trimmed value, and the
    lines that follow are added to that value. *)
Theorem data_field_replaces_body config record line :
  isReservedWord config "data" = true →
  contains line colon = true →
  before line colon = "data" →
  ∃ remainder, after line colon = Some remainder ∧
    get (store config line record) "data" = TrimSpace remainder ∧
    ∀ next, isField config next = false →
      get (store config next (store config line record)) "data"
      = TrimSpace remainder +:+ next.
Proof.
  intros Hd Hc Hk.
  destruct (store_field config line record Hc) as (remainder & Ha & Hs);
    [by rewrite Hk|].
  exists remainder. split; [done|]. rewrite Hs, Hk. split.
  - unfold get. by rewrite lookup_insert_eq.
  - intros next Hn. rewrite store_isField, Hn. unfold get.
    by rewrite !lookup_insert_eq.
Qed.

(** X5.  [TrimSpace] leaving a trimmed string as it is, every value the
    record of a run of lines holds under a key other than ["data"] is
    trimmed: [TrimSpace] leaves it as it is. *)
Theorem field_values_trimmed config seg k v :
  (∀ s, TrimSpace (TrimSpace s) = TrimSpace s) →
  k ≠ "data" → build config seg !! k = Some v → TrimSpace v = v.
Proof.
  intros Hidem Hk. unfold build. apply trimmed_values; [done| |done].
  intros k' v' _. by rewrite lookup_empty.
Qed.

(** X6.  [TrimSpace] leaving a trimmed string as it is, a record start
    that the configuration gives untrimmed matches no line, since lines
    are trimmed before they are compared: the run, with no fault, hands
    the router one record, built from all the complete lines of the
    input. *)
Theorem untrimmed_record_start_never_matches config outputDir input fs :
  (∀ s, TrimSpace (TrimSpace s) = TrimSpace s) →
  TrimSpace (RecordStart config) ≠ RecordStart config →
  (∀ line, isRecordStart config line = false) ∧
  ∃ st', processFile (clean input) config outputDir (boot fs [])
           = Some (None, st') ∧
         routed st' = [build config (lines input)].
Proof.
  intros Hidem Hrs.
  assert (∀ line, isRecordStart config line = false) as Hno.
  { intros line. destruct (isRecordStart config line) eqn:E; [|done].
    by apply isRecordStart_trimmed in E. }
  split; [done|].
  destruct (processFile_clean config outputDir input fs)
    as (r & st1 & st2 & _ & _ & _ & _ & _ & Hr & Hrun).
  exists (closeAll st2). split; [exact Hrun|].
  destruct (closeAll_fields st2) as (_ & _ & -> & _).
  rewrite Hr, segments_no_starts; [done|].
  apply Forall_forall. intros l _. apply Hno.
Qed.

(** X7.  On ASCII text, where [TrimSpace] is taken to do what Go's does:
    a record start of ASCII bytes with no white space at its ends is
    found on every line that holds it between ASCII white space, whatever
    the indentation and the end of the line (a line feed, or a carriage
    return and a line feed). *)
Theorem record_start_between_spaces config front behind :
  agreesOnASCII lib →
  isASCII (RecordStart config) = true →
  asciiTrimSpace (RecordStart config) = RecordStart config →
  allSpace front = true → allSpace behind = true →
  isRecordStart config (front +:+ RecordStart config +:+ behind) = true.
Proof.
  intros H Ha Hrs Hf Hb.
  rewrite (isRecordStart_ascii H)
    by (by rewrite !isASCII_app, Ha, !allSpace_isASCII).
  unfold isRecordStart. apply String.eqb_eq. cbn [TrimSpace asciiText].
  by rewrite asciiTrimSpace_space_app, asciiTrimSpace_app_space.
Qed.

(** X8.  An input without a line feed, the empty input among them, still
    has the router called once, on the empty record: with no fault the
    run adds one empty line to the file of the language ["eng"]. *)
Theorem input_without_line config outputDir input fs :
  contains input LF = false →
  ∃ st', processFile (clean input) config outputDir (boot fs [])
           = Some (None, st') ∧
         routed st' = [∅] ∧
         files st' = route outputDir fs ∅ ∧
         destination outputDir ∅
         = JoinPath [JoinPath [outputDir; "eng"]; "output.jsonl"].
Proof.
  intros H%lines_contains.
  destruct (processFile_clean config outputDir input fs)
    as (r & st1 & st2 & _ & _ & _ & _ & _ & Hr & Hrun).
  destruct (processFile_files config outputDir input fs [])
    as (e & st' & Hrun' & Hf).
  rewrite Hrun in Hrun'. injection Hrun' as <- <-.
  exists (closeAll st2). split; [exact Hrun|]. split_and!; [|by rewrite Hf, H|done].
  destruct (closeAll_fields st2) as (_ & _ & -> & _). by rewrite Hr, H.
Qed.

(** X9.  When the reader fails with an error other than the end of the
    stream, and the router does not fail, the run returns that error; the
    records closed by a record start were routed, the record in hand was
    not, and no handle was closed. *)
Theorem read_fault_drops_record_in_hand config outputDir input e fs :
  e ≠ EOF →
  ∃ st' r,
    processFile {| pending := input; ending := e |} config outputDir (boot fs [])
      = Some (Some e, st') ∧
    routed st' ++ [r] = (build config <$> segments config (lines input)) ∧
    length (routed st') = recordStarts config (lines input) ∧
    closed st' = [].
Proof.
  intros He.
  destruct (processFile_cases config outputDir {| pending := input; ending := e |} fs [])
    as (res & st1 & Hfeed & C1 & Hrun).
  cbn [pending ending] in *.
  destruct (feed_no_fault config outputDir (lines input) ∅ (boot fs [])
              (consistent_boot fs []) eq_refl) as (r & st1' & Hfeed' & _).
  rewrite Hfeed in Hfeed'. injection Hfeed' as -> <-.
  pose proof (feed_routed config outputDir _ _ _ _ _ Hfeed) as Hr.
  cbn [routed boot app] in Hr. rewrite emissions_empty in Hr.
  exists st1, r. split_and!; [|done| |apply C1].
  - rewrite Hrun. cbn [outcome]. by destruct e.
  - apply (f_equal length) in Hr.
    rewrite length_app, length_fmap, segments_length in Hr. cbn in Hr. lia.
Qed.

Lemma write_open_fails record outputDir st fl :
  jsonlFiles st = ∅ → faults st = true :: fl →
  ∃ st', writeRecordToJSONL record outputDir st = (inr ErrOpen, st') ∧
         files st' = files st ∧ opened st' = opened st ∧
         closed st' = closed st ∧ routed st' = routed st ++ [record].
Proof.
  intros Hj Hf. rewrite write_shape. cbn zeta. rewrite Hj, lookup_empty.
  unfold OpenFile, fails. cbn [faults opened closed files jsonlFiles dirs routed].
  rewrite Hf. cbn [hd]. eexists. by split_and!.
Qed.

Lemma feed_open_fails config outputDir ls record st fl :
  jsonlFiles st = ∅ → faults st = true :: fl →
  match feed config outputDir ls record st with
  | (inl _, st') => st' = st
  | (inr e, st') =>
      e = ErrOpen ∧ files st' = files st ∧ opened st' = opened st ∧
      closed st' = closed st ∧ length (routed st') = S (length (routed st))
  end.
Proof.
  intros Hj Hf. revert record.
  induction ls as [|l ls IH]; intros record; cbn [feed]; [done|].
  destruct (negb (isRecordStart config l)); [apply IH|].
  unfold bind.
  destruct (write_open_fails record outputDir st fl Hj Hf)
    as (st' & -> & ? & ? & ? & Hr).
  split_and!; try done. rewrite Hr, length_app. cbn. lia.
Qed.

(** X10.  When the first file cannot be opened, the run on a stream that
    ends cleanly returns the error of [os.OpenFile] after one call of the
    router, whatever the input: no file is created or changed and no
    handle exists. *)
Theorem first_open_fails config outputDir input fs fl :
  ∃ st', processFile (clean input) config outputDir (boot fs (true :: fl))
           = Some (Some ErrOpen, st') ∧
         files st' = fs ∧ opened st' = [] ∧ closed st' = [] ∧
         length (routed st') = 1.
Proof.
  destruct (processFile_cases config outputDir (clean input) fs (true :: fl))
    as (res & st1 & Hfeed & C1 & ->).
  cbn [pending ending clean] in *.
  pose proof (feed_open_fails config outputDir (lines input) ∅ (boot fs (true :: fl)) fl
                eq_refl eq_refl) as H.
  rewrite Hfeed in H. destruct res as [r|e]; cbn [outcome].
  - subst st1. unfold finish.
    destruct (write_open_fails r outputDir (boot fs (true :: fl)) fl eq_refl eq_refl)
      as (st' & -> & Hfs & Ho & Hc & Hr).
    exists st'. split_and!; try done. by rewrite Hr.
  - destruct H as (-> & Hfs & Ho & Hc & Hr). by exists st1.
Qed.

Lemma processFile_extends config outputDir reader fs fl :
  ∃ e st', processFile reader config outputDir (boot fs fl) = Some (e, st') ∧
           extends fs (files st').
Proof.
  destruct (processFile_cases config outputDir reader fs fl)
    as (res & st1 & Hfeed & _ & ->).
  pose proof (feed_extends config outputDir (lines (pending reader)) ∅ (boot fs fl)) as H.
  rewrite Hfeed in H. cbn [snd files boot] in H.
  destruct res as [r|err]; cbn [outcome]; [|by eauto].
  destruct (ending reader); try by eauto.
  unfold finish. pose proof (write_extends r outputDir st1) as Hw.
  destruct (writeRecordToJSONL r outputDir st1) as [[u|e] st2]; cbn [snd] in Hw.
  - exists None, (closeAll st2). split; [done|].
    destruct (closeAll_fields st2) as (-> & _). by eapply extends_trans.
  - exists (Some e), st2. split; [done|]. by eapply extends_trans.
Qed.

(** X11.  A run only ever adds to the files: however it ends and whatever
    the faults, every file that was there before the run is there after
    it and holds what it held, followed by what the run added. *)
Theorem files_only_grow config outputDir reader fs fl :
  ∃ e st', processFile reader config outputDir (boot fs fl) = Some (e, st') ∧
           ∀ p old, fs !! p = Some old →
                    ∃ new, files st' !! p = Some (old ++ new).
Proof. apply processFile_extends. Qed.

(** X12.  After a run that ends without error each file holds what it
    held before, followed by the records of the run that have that file
    as destination, in the order of the run; the files that exist are the
    files that were there and the destinations of the records. *)
Theorem each_file_gets_its_records config outputDir input fs fl :
  ∃ e st',
    processFile (clean input) config outputDir (boot fs fl) = Some (e, st') ∧
    (e = None →
     (∀ p, default [] (files st' !! p)
           = default [] (fs !! p)
             ++ filter (λ r, destination outputDir r = p)
                  (build config <$> segments config (lines input))) ∧
     dom (files st')
     = dom fs ∪ list_to_set (destination outputDir
                               <$> (build config <$> segments config (lines input)))).
Proof.
  destruct (processFile_files config outputDir input fs fl) as (e & st' & Hrun & Hf).
  exists e, st'. split; [done|]. intros He. rewrite (Hf He). split.
  - intros p. apply foldl_route_lookup.
  - apply foldl_route_dom.
Qed.

Lemma write_opened_set record outputDir st u st' :
  consistent st →
  writeRecordToJSONL record outputDir st = (inl u, st') →
  (list_to_set (opened st') : gset string)
  = list_to_set (opened st) ∪ {[destination outputDir record]}.
Proof.
  intros C Hw.
  destruct (write_ok_effect record outputDir st u st' C Hw) as (_ & -> & _ & _).
  rewrite list_to_set_app_L.
  destruct (jsonlFiles st !! destination outputDir record) as [f|] eqn:E.
  - apply C, list_elem_of_lookup_2 in E.
    assert (destination outputDir record ∈ (list_to_set (opened st) : gset string))
      by by apply elem_of_list_to_set.
    cbn [list_to_set]. set_solver.
  - cbn [list_to_set]. set_solver.
Qed.

Lemma feed_opened_set config outputDir ls record st r st' :
  consistent st →
  feed config outputDir ls record st = (inl r, st') →
  (list_to_set (opened st') : gset string) ∪ {[destination outputDir r]}
  = list_to_set (opened st)
    ∪ list_to_set (destination outputDir <$> emissions config record ls).
Proof.
  revert record st. induction ls as [|l ls IH]; intros record st C; cbn [feed].
  - intros [= <- <-]. unfold emissions. cbn. set_solver.
  - destruct (isRecordStart config l) eqn:E; cbn [negb].
    + unfold bind. rewrite emissions_start by done.
      pose proof (write_consistent record outputDir st C) as C1.
      pose proof (write_opened_set record outputDir st) as Hw.
      destruct (writeRecordToJSONL record outputDir st) as [[u|err] st1]; [|done].
      specialize (Hw u st1 C eq_refl). cbn [snd] in C1.
      intros H. apply IH in H; [|done]. rewrite H, Hw.
      cbn [fmap list_fmap list_to_set]. set_solver.
    + intros H. rewrite emissions_line by done. by apply IH.
Qed.

(** X13.  A run that ends without error has opened one handle for each
    destination its records have, and no other: the paths opened are the
    destinations of the records, each once, and every handle was closed
    once at the end. *)
Theorem one_handle_per_destination config outputDir input fs fl :
  ∃ e st',
    processFile (clean input) config outputDir (boot fs fl) = Some (e, st') ∧
    (e = None →
     NoDup (opened st') ∧
     (∀ p, p ∈ opened st'
           ↔ ∃ r, r ∈ (build config <$> segments config (lines input))
                  ∧ destination outputDir r = p) ∧
     NoDup (closed st') ∧
     ∀ f, f ∈ closed st' ↔ f < length (opened st')).
Proof.
  destruct (processFile_total config outputDir (clean input) fs fl) as [[e st'] Hrun].
  exists e, st'. split; [done|]. intros ->.
  destruct (processFile_filed config outputDir _ _ _ _ _ Hrun) as (F & _ & Hc).
  destruct (Hc eq_refl) as [Hnd Hcl].
  split_and!; [by apply filed_NoDup| |done|done].
  destruct (processFile_cases config outputDir (clean input) fs fl)
    as (res & st1 & Hfeed & C1 & Hrun').
  rewrite Hrun in Hrun'. injection Hrun' as Hout.
  cbn [pending ending clean] in *. destruct res as [r|err]; cbn [outcome] in Hout; [|done].
  unfold finish in Hout.
  pose proof (write_opened_set r outputDir st1) as Hw.
  destruct (writeRecordToJSONL r outputDir st1) as [[u|err] st2]; [|done].
  injection Hout as ->. specialize (Hw u st2 C1 eq_refl).
  pose proof (feed_opened_set config outputDir _ _ _ _ _ (consistent_boot fs fl) Hfeed) as Hs.
  cbn [opened boot list_to_set] in Hs. rewrite emissions_empty in Hs.
  destruct (closeAll_fields st2) as (_ & -> & _).
  intros p. rewrite <- (elem_of_list_to_set (C := gset string)), Hw, Hs.
  rewrite union_empty_l_L, elem_of_list_to_set, list_elem_of_fmap. naive_solver.
Qed.

Lemma ReplaceAll_without s old new :
  Ascii.eqb new old = false → contains (ReplaceAll s old new) old = false.
Proof.
  intros H. induction s as [|c s IH]; [done|]. cbn [ReplaceAll contains].
  rewrite IH, orb_false_r. destruct (Ascii.eqb c old) eqn:E; [done|exact E].
Qed.

(** X14.  The routing key of a record is never empty and never holds a
    comma.  It is read from the key spelled exactly
    [WARC-Identified-Content-Language]: a line that writes another key,
    such as the same name in another case, leaves the routing key as it
    was, so a record whose lines write other keys only goes to ["eng"]. *)
Theorem routing_key_shape :
  (∀ record, routingKey record ≠ "" ∧ contains (routingKey record) "," = false) ∧
  (∀ config line record,
     target config line ≠ languageField →
     routingKey (store config line record) = routingKey record) ∧
  (∀ config seg,
     Forall (λ l, target config l ≠ languageField) seg →
     routingKey (build config seg) = "eng").
Proof.
  split_and!.
  - intros record. unfold routingKey.
    destruct (record !! languageField) as [[|c v]|]; try done.
    split; [done|]. by apply ReplaceAll_without.
  - intros config line record H. unfold routingKey. by rewrite store_other.
  - intros config seg H. unfold routingKey, build.
    by rewrite buildFrom_other, lookup_empty.
Qed.

(** X15.  With no record start and no field line in it, an input that has
    a complete line gives one record, whose only key is ["data"] and whose
    body is the input up to its last line feed, byte for byte. *)
Theorem body_copies_the_input config outputDir input fs :
  contains input LF = true →
  Forall (λ l, isRecordStart config l = false ∧ isField config l = false)
    (lines input) →
  ∃ st', processFile (clean input) config outputDir (boot fs [])
           = Some (None, st') ∧
         routed st' = [ {["data" := completePart input]} ].
Proof.
  intros Hlf H.
  destruct (processFile_clean config outputDir input fs)
    as (r & st1 & st2 & _ & _ & _ & _ & _ & Hr & Hrun).
  exists (closeAll st2). split; [exact Hrun|].
  destruct (closeAll_fields st2) as (_ & _ & -> & _).
  rewrite Hr, segments_no_starts
    by (eapply Forall_impl; [exact H|]; by intros l [? _]).
  cbn [fmap list_fmap]. f_equal. unfold build.
  rewrite buildFrom_bodies.
  - by rewrite glue_lines.
  - intros E. apply lines_nil in E. congruence.
  - eapply Forall_impl; [exact H|]. by intros l [_ ?].
Qed.

Lemma cleanStep_dotdot rooted out dotdot :
  dotdot < length out → cleanStep rooted (out, dotdot) ".." = (tl out, dotdot).
Proof.
  intros H%Nat.ltb_lt. unfold cleanStep.
  change (String.eqb ".." "") with false. change (String.eqb ".." ".") with false.
  change (String.eqb ".." "..") with true. cbv iota. by rewrite H.
Qed.

Lemma Clean_dotdot init lastE :
  Forall (λ e, plain e = true) (init ++ [lastE]) →
  Clean (Join ((init ++ [lastE]) ++ [".."]) "/")
  = if decide (init = []) then "." else Join init "/".
Proof.
  intros H.
  assert (Forall (λ e, contains e Separator = false) ((init ++ [lastE]) ++ [".."])) as Hsep.
  { apply Forall_app. split; [|by repeat constructor].
    eapply Forall_impl; [exact H|]. by intros e (_ & _ & _ & ?)%plain_parts. }
  assert (∃ c rest, Join ((init ++ [lastE]) ++ [".."]) "/" = String c rest
                    ∧ Ascii.eqb c Separator = false) as (c & rest & Hj & Hc).
  { destruct (init ++ [lastE]) as [|e l] eqn:E; [by destruct init|].
    apply Forall_cons in H as [(He & _ & _ & Hs)%plain_parts _].
    destruct e as [|c e]; [done|]. cbn in Hs. apply orb_false_iff in Hs as [Hc _].
    exists c. destruct l; cbn; eauto. }
  assert ((init ++ [lastE]) ++ [".."] ≠ []) as Hne0 by (by destruct (init ++ [lastE])).
  pose proof (Split_Join _ Separator Hne0 Hsep) as HS.
  unfold Clean. rewrite Hj, Hc, <- Hj. unfold Separator in HS |- *. rewrite HS.
  rewrite fold_left_app, fold_cleanStep_plain by done. cbn [fold_left].
  rewrite app_nil_r, rev_app_distr. cbn [rev app].
  rewrite cleanStep_dotdot by (cbn; lia). cbn [tl fst]. rewrite rev_involutive.
  destruct (decide (init = [])) as [->|Hne]; [done|].
  destruct (Clean_plain init Hne) as [_ Hnz].
  { apply Forall_app in H. apply H. }
  apply String.eqb_neq in Hnz. by rewrite Hnz.
Qed.

(** X16.  A routing key of [..] takes the record out of the output root:
    under a root of plain names the destination is [output.jsonl] in the
    directory above the root, because the path is cleaned after the key is
    joined to it.  The language value [..] gives that key. *)
Theorem parent_key_leaves_root init lastE record :
  Forall (λ e, plain e = true) (init ++ [lastE]) →
  routingKey record = ".." →
  destination (Join (init ++ [lastE]) "/") record
  = Join (init ++ ["output.jsonl"]) "/" ∧
  routingKey {[languageField := ".."]} = "..".
Proof.
  intros H Hk. split; [|done]. unfold destination. rewrite Hk.
  destruct (Clean_plain (init ++ [lastE])) as [_ Hne]; [by destruct init|done|].
  assert (JoinPath [Join (init ++ [lastE]) "/"; ".."]
          = if decide (init = []) then "." else Join init "/") as ->.
  { cbn [JoinPath]. apply String.eqb_neq in Hne. rewrite Hne.
    change (Join [?a; ?b] "/") with (a +:+ "/" +:+ b).
    rewrite <- Join_snoc by (by destruct init). by apply Clean_dotdot. }
  destruct (decide (init = [])) as [->|Hi]; [done|].
  assert (Forall (λ e, plain e = true) init) as Hp by (apply Forall_app in H; apply H).
  destruct (Clean_plain init Hi Hp) as [_ Hnz].
  cbn [JoinPath]. apply String.eqb_neq in Hnz. rewrite Hnz.
  change (Join [?a; ?b] "/") with (a +:+ "/" +:+ b).
  rewrite <- Join_snoc by done.
  apply Clean_plain; [by destruct init|].
  apply Forall_app. split; [done|]. by repeat constructor.
Qed.

(** X17.  However the stream ends and whatever the faults, the records
    handed to the router are the first of the records of the input, in
    order: the router is never called on anything else, and never more
    often than there are record starts, plus one. *)
Theorem router_calls_are_a_prefix config outputDir reader fs fl :
  ∃ e st',
    processFile reader config outputDir (boot fs fl) = Some (e, st') ∧
    routed st' `prefix_of` (build config <$> segments config (lines (pending reader))) ∧
    length (routed st') ≤ recordStarts config (lines (pending reader)) + 1.
Proof.
  assert (∃ e st',
            processFile reader config outputDir (boot fs fl) = Some (e, st') ∧
            routed st' `prefix_of`
              (build config <$> segments config (lines (pending reader))))
    as (e & st' & Hrun & Hp).
  { destruct (processFile_cases config outputDir reader fs fl)
      as (res & st1 & Hfeed & _ & ->).
    rewrite <- emissions_empty.
    destruct res as [r|err]; cbn [outcome].
    - pose proof (feed_routed config outputDir _ _ _ _ _ Hfeed) as Hr.
      cbn [routed boot app] in Hr.
      assert (∀ x : error, ∃ (e : option error) (st' : State),
                Some (Some x, st1) = Some (e, st') ∧
                routed st' `prefix_of` emissions config ∅ (lines (pending reader)))
        as Herr.
      { intros x. exists (Some x), st1. split; [done|]. exists [r]. by rewrite Hr. }
      destruct (ending reader); try apply Herr.
      unfold finish. pose proof (write_routed r outputDir st1) as [Hw _].
      destruct (writeRecordToJSONL r outputDir st1) as [[u|e] st2]; cbn [snd] in Hw.
      + exists None, (closeAll st2). split; [done|].
        destruct (closeAll_fields st2) as (_ & _ & -> & _). by rewrite Hw, Hr.
      + exists (Some e), st2. split; [done|]. by rewrite Hw, Hr.
    - exists (Some err), st1. split; [done|].
      by apply (feed_routed_err config outputDir) in Hfeed. }
  exists e, st'. split_and!; [done|done|].
  apply prefix_length in Hp. rewrite length_fmap, segments_length in Hp. lia.
Qed.

(** X18.  On ASCII text, where [TrimSpace] is taken to do what Go's
    does: with an empty record start (the value of the field when the
    configuration does not set it), a line of ASCII bytes is a record
    start exactly when it is white space only, so every blank line closes
    a record. *)
Theorem empty_record_start_is_blank_line config line :
  agreesOnASCII lib →
  RecordStart config = "" →
  isASCII line = true →
  isRecordStart config line = allSpace line.
Proof.
  intros Ha H Hl. rewrite (isRecordStart_ascii Ha) by done.
  unfold isRecordStart. rewrite H. cbn [TrimSpace asciiText].
  apply Bool.eq_iff_eq_true.
  by rewrite String.eqb_eq, asciiTrimSpace_empty.
Qed.

(** X19.  With no reserved word (the value of the field when the
    configuration does not set it), no line is a field line: the record of a
    run of lines has the lines, one after the other, under ["data"] and no
    other key (no key at all for an empty run), and its routing key is
    ["eng"]. *)
Theorem no_reserved_word_no_field config seg :
  ReservedWords config = [] →
  (∀ line, isField config line = false) ∧
  build config seg = (if seg is [] then ∅ else {["data" := glue seg]}) ∧
  routingKey (build config seg) = "eng".
Proof.
  intros H.
  assert (∀ line, isField config line = false) as Hno.
  { intros line. unfold isField, isReservedWord. rewrite H. apply andb_false_r. }
  assert (build config seg = (if seg is [] then ∅ else {["data" := glue seg]})) as Hb.
  { destruct seg as [|l seg]; [done|]. unfold build.
    rewrite buildFrom_bodies; [done|done|]. apply Forall_forall. by intros. }
  split_and!; [done|done|]. rewrite Hb. by destruct seg.
Qed.

End Properties.

(** * The properties on ASCII text

    The lemmas below are computed with [asciiText], the ASCII paths of
    [TrimSpace] and [EqualFold].  Their inputs and configurations are
    ASCII text, on which every [Text] that [agreesOnASCII] runs the
    program to the same result ([processFile_ascii], [store_ascii]). *)

Section OnASCII.

#[local] Existing Instance asciiText.

Lemma two_records_example_witness :
  lines inputAB = ["A:1" +:+ newline; "---" +:+ newline; "B:2" +:+ newline] ∧
  ∃ st', processFile (clean inputAB) configAB "data/output" (boot ∅ [])
           = Some (None, st') ∧
         routed st' = [ {["A" := "1"]}; {["B" := "2"]} ].
Proof. apply (two_records_example "data/output" ∅). apply asciiText_agrees. Defined.

(** The first line being a record start, the first record handed to the
    router is the empty one. *)
Example stray_start_emits_empty outputDir fs :
  ∃ st', processFile (clean ("---" +:+ newline +:+ "B:2" +:+ newline))
           configAB outputDir (boot fs []) = Some (None, st') ∧
         routed st' = [ ∅; {["B" := "2"]} ].
Proof.
  destruct (processFile_clean configAB outputDir
              ("---" +:+ newline +:+ "B:2" +:+ newline) fs)
    as (r & st1 & st2 & _ & _ & _ & _ & _ & Hr & Hrun).
  exists (closeAll st2). split; [exact Hrun|].
  destruct (closeAll_fields st2) as (_ & _ & -> & _).
  rewrite Hr. by vm_compute.
Qed.

(** C7, as the claim words it, fails.  With [N] the number of record
    starts, the input ["A:1\n---\n"] ends right after its only record
    start and still yields two records, not one.  With [N] the number of
    runs of lines between the record starts, the input of the first
    example does not end on a record start, has two runs and yields two
    records, not three.  By [boundary_count_on_ascii] the same holds of
    every [Text] that [agreesOnASCII]. *)
Lemma boundary_count_counterexample :
  (∃ st', processFile (clean ("A:1" +:+ newline +:+ "---" +:+ newline))
            configAB "data/output" (boot ∅ []) = Some (None, st') ∧
          endsOnRecordStart configAB ("A:1" +:+ newline +:+ "---" +:+ newline) = true ∧
          recordStarts configAB (lines ("A:1" +:+ newline +:+ "---" +:+ newline)) = 1 ∧
          routed st' = [ {["A" := "1"]}; ∅ ] ∧
          length (routed st') ≠ 1) ∧
  (∃ st', processFile (clean inputAB) configAB "data/output" (boot ∅ [])
            = Some (None, st') ∧
          endsOnRecordStart configAB inputAB = false ∧
          length (segments configAB (lines inputAB)) = 2 ∧
          length (routed st') ≠ 2 + 1).
Proof. exact (boundary_count_on_ascii asciiText_agrees). Qed.

(** The last line of ["A:1\n---\nB:2"] has no line feed: the run is the
    run on ["A:1\n---\n"], and [B] is in no record. *)
Example unterminated_tail_example :
  ∃ st', processFile (clean ("A:1" +:+ newline +:+ "---" +:+ newline +:+ "B:2"))
           configAB "data/output" (boot ∅ []) = Some (None, st') ∧
         routed st' = [ {["A" := "1"]}; ∅ ].
Proof. eexists. split; by vm_compute. Qed.

Lemma field_line_stored_witness :
  ∃ remainder, after ("Warc-Type: a:b " +:+ newline) colon = Some remainder ∧
    scan 2 configWarcType "data/output"
      (clean ("Warc-Type: a:b " +:+ newline)) {["data" := "x"]} (boot ∅ [])
    = scan 1 configWarcType "data/output" (clean "")
        (<[before ("Warc-Type: a:b " +:+ newline) colon := TrimSpace remainder]>
           {["data" := "x"]}) (boot ∅ []).
Proof.
  apply (proj1 field_line_stored configWarcType "data/output" 1
           (clean ("Warc-Type: a:b " +:+ newline)) {["data" := "x"]} (boot ∅ [])
           ("Warc-Type: a:b " +:+ newline) "");
    by vm_compute.
Defined.

Lemma body_line_appended_witness :
  scan 2 configA "data/output" (clean (" A : 1 " +:+ newline)) {["A" := "0"]} (boot ∅ [])
  = scan 1 configA "data/output" (clean "")
      (<["data" := get {["A" := "0"]} "data" +:+ " A : 1 " +:+ newline]> {["A" := "0"]})
      (boot ∅ []) ∧
  (∀ k, k ≠ "data" →
     (<["data" := get {["A" := "0"]} "data" +:+ " A : 1 " +:+ newline]> {["A" := "0"]} : Rec) !! k
     = ({["A" := "0"]} : Rec) !! k) ∧
  ∃ body, " A : 1 " +:+ newline = body +:+ newline.
Proof.
  apply (proj1 body_line_appended configA "data/output" 1
           (clean (" A : 1 " +:+ newline)) {["A" := "0"]} (boot ∅ [])
           (" A : 1 " +:+ newline) "");
    [by vm_compute|by vm_compute|right; by vm_compute].
Defined.

(** C8, as the claim words it, fails.  With the reserved word [A], the
    lines ["a: 1\n"] and ["A: 2\n"] are two occurrences of the reserved
    field, spelled with different case; the record keeps both, each under
    its own spelling, and the first value is not replaced.  By
    [last_occurrence_on_ascii] the same holds of every [Text] that
    [agreesOnASCII]. *)
Lemma last_occurrence_counterexample :
  isReservedWord configA "a" = true ∧ isReservedWord configA "A" = true ∧
  build configA ["a: 1" +:+ newline; "A: 2" +:+ newline]
    = {["a" := "1"; "A" := "2"]} ∧
  size (build configA ["a: 1" +:+ newline; "A: 2" +:+ newline]) ≠ 1 ∧
  build configA ["a: 1" +:+ newline; "A: 2" +:+ newline] !! "a" = Some "1" ∧
  ∃ st', processFile (clean ("a: 1" +:+ newline +:+ "A: 2" +:+ newline))
           configA "data/output" (boot ∅ []) = Some (None, st') ∧
         routed st' = [ {["a" := "1"; "A" := "2"]} ].
Proof. exact (last_occurrence_on_ascii asciiText_agrees). Qed.

Lemma last_occurrence_wins_witness :
  ∃ remainder, after ("A: 3" +:+ newline) colon = Some remainder ∧
    buildFrom configA ∅
      (["A: 1" +:+ newline; "a: 2" +:+ newline] ++
       ("A: 3" +:+ newline) :: ["text" +:+ newline; "a: 4" +:+ newline])
      !! before ("A: 3" +:+ newline) colon
    = Some (TrimSpace remainder).
Proof.
  apply (proj1 last_occurrence_wins configA ∅
           ["A: 1" +:+ newline; "a: 2" +:+ newline] ("A: 3" +:+ newline)
           ["text" +:+ newline; "a: 4" +:+ newline]);
    [by vm_compute|by vm_compute|].
  repeat constructor; by vm_compute.
Defined.

Lemma handles_left_open_on_error_witness :
  (∃ st', processFile {| pending := "---" +:+ newline; ending := ErrRead |}
            configAB "data/output" (boot ∅ []) = Some (Some ErrRead, st') ∧
          opened st' = ["data/output/eng/output.jsonl"] ∧ closed st' = []) ∧
  (∃ st', processFile (clean ("---" +:+ newline +:+ "---" +:+ newline))
            configAB "data/output" (boot ∅ [false; false; true])
            = Some (Some ErrWrite, st') ∧
          opened st' = ["data/output/eng/output.jsonl"] ∧ closed st' = []).
Proof. apply handles_left_open_on_error. apply asciiText_agrees. Defined.

Lemma routed_by_language_witness :
  files (writeRecordToJSONL {[languageField := "eng,fra"; "data" := "text"]}
           "data/output" (boot ∅ [])).2
  = route "data/output" ∅ {[languageField := "eng,fra"; "data" := "text"]}.
Proof.
  apply (proj1 routed_by_language
           {[languageField := "eng,fra"; "data" := "text"]}
           "data/output" (boot ∅ []) tt);
    [apply consistent_boot|by vm_compute].
Defined.

(** A thousand records in the same languages: one file, opened once, with
    a thousand lines. *)
Lemma each_destination_opened_once_witness :
  (∃ st', processFile (clean (sameLanguage 999)) configLanguage "data/output"
            (boot ∅ []) = Some (None, st') ∧
          opened st' = ["data/output/fra_deu/output.jsonl"] ∧
          files st' =
            <["data/output/fra_deu/output.jsonl" :=
                default [] ((∅ : gmap string (list Rec))
                              !! "data/output/fra_deu/output.jsonl")
                ++ (build configLanguage
                      <$> segments configLanguage (lines (sameLanguage 999)))]> ∅) ∧
  length (build configLanguage
            <$> segments configLanguage (lines (sameLanguage 999))) = 1000.
Proof.
  split.
  - apply (proj2 (proj2 (proj2 each_destination_opened_once))
             configLanguage "data/output" (sameLanguage 999) ∅
             "data/output/fra_deu/output.jsonl").
    apply (bool_decide_unpack _). by vm_compute.
  - rewrite length_fmap, segments_length. by vm_compute.
Defined.

Lemma reserved_up_to_case_witness :
  isReservedWord configWarcType "Warc-Type" = isReservedWord configWarcType "warc-type" ∧
  (isReservedWord configWarcType "warc-type" = true
   ↔ ∃ word, word ∈ ReservedWords configWarcType ∧ ToLower word = ToLower "warc-type").
Proof.
  split.
  - apply (proj1 (proj2 (reserved_up_to_case configWarcType "warc-type"))).
    + intros a b H%asciiEqualFold_ToLower. by apply asciiEqualFold_ToLower.
    + intros a b c H1%asciiEqualFold_ToLower H2%asciiEqualFold_ToLower.
      apply asciiEqualFold_ToLower. congruence.
    + by vm_compute.
  - apply (proj2 (proj2 (reserved_up_to_case configWarcType "warc-type")));
      [apply asciiText_agrees|by vm_compute..].
Defined.

Lemma body_is_the_body_lines_witness :
  get (build configA ["one" +:+ newline; "A: 1" +:+ newline; "B: two" +:+ newline])
    "data"
  = glue (filter (λ l, isField configA l = false)
            ["one" +:+ newline; "A: 1" +:+ newline; "B: two" +:+ newline]).
Proof. apply (body_is_the_body_lines configA). by vm_compute. Defined.

Lemma data_field_replaces_body_witness :
  ∃ remainder, after ("data: new" +:+ newline) colon = Some remainder ∧
    get (store {| ReservedWords := ["Data"]; RecordStart := "---" |}
           ("data: new" +:+ newline) {["data" := "old body"]}) "data"
    = TrimSpace remainder ∧
    ∀ next,
      isField {| ReservedWords := ["Data"]; RecordStart := "---" |} next = false →
      get (store {| ReservedWords := ["Data"]; RecordStart := "---" |} next
             (store {| ReservedWords := ["Data"]; RecordStart := "---" |}
                ("data: new" +:+ newline) {["data" := "old body"]})) "data"
      = TrimSpace remainder +:+ next.
Proof.
  apply (data_field_replaces_body
           {| ReservedWords := ["Data"]; RecordStart := "---" |}
           {["data" := "old body"]} ("data: new" +:+ newline));
    by vm_compute.
Defined.

Lemma field_values_trimmed_witness :
  build configA ["A:  x y " +:+ newline; "text" +:+ newline] !! "A" = Some "x y" ∧
  TrimSpace "x y" = "x y".
Proof.
  split; [by vm_compute|].
  apply (field_values_trimmed configA
           ["A:  x y " +:+ newline; "text" +:+ newline] "A" "x y");
    [apply asciiTrimSpace_idem|by vm_compute|by vm_compute].
Defined.

Lemma untrimmed_record_start_never_matches_witness :
  (∀ line, isRecordStart {| ReservedWords := ["A"]; RecordStart := "--- " |} line = false) ∧
  ∃ st', processFile (clean ("A:1" +:+ newline +:+ "--- " +:+ newline +:+ "A:2" +:+ newline))
           {| ReservedWords := ["A"]; RecordStart := "--- " |} "data/output" (boot ∅ [])
           = Some (None, st') ∧
         routed st' =
           [build {| ReservedWords := ["A"]; RecordStart := "--- " |}
              (lines ("A:1" +:+ newline +:+ "--- " +:+ newline +:+ "A:2" +:+ newline))].
Proof.
  apply (untrimmed_record_start_never_matches
           {| ReservedWords := ["A"]; RecordStart := "--- " |} "data/output"
           ("A:1" +:+ newline +:+ "--- " +:+ newline +:+ "A:2" +:+ newline) ∅);
    [apply asciiTrimSpace_idem|by vm_compute].
Defined.

Lemma record_start_between_spaces_witness :
  isRecordStart configWarcType
    ("  " +:+ RecordStart configWarcType +:+ String "013" newline) = true.
Proof.
  apply (record_start_between_spaces configWarcType "  " (String "013" newline));
    [apply asciiText_agrees|by vm_compute..].
Defined.

Lemma input_without_line_witness :
  ∃ st', processFile (clean "no end of line") configAB "data/output" (boot ∅ [])
           = Some (None, st') ∧
         routed st' = [∅] ∧
         files st' = route "data/output" ∅ ∅ ∧
         destination "data/output" ∅
         = JoinPath [JoinPath ["data/output"; "eng"]; "output.jsonl"].
Proof.
  apply (input_without_line configAB "data/output" "no end of line" ∅).
  by vm_compute.
Defined.

Lemma read_fault_drops_record_in_hand_witness :
  ∃ st' r,
    processFile {| pending := inputAB; ending := ErrRead |} configAB "data/output"
      (boot ∅ []) = Some (Some ErrRead, st') ∧
    routed st' ++ [r] = (build configAB <$> segments configAB (lines inputAB)) ∧
    length (routed st') = recordStarts configAB (lines inputAB) ∧
    closed st' = [].
Proof.
  by apply (read_fault_drops_record_in_hand configAB "data/output" inputAB ErrRead ∅).
Defined.

Lemma routing_key_shape_witness :
  routingKey (build configLanguage
                ["warc-identified-content-language: fra" +:+ newline;
                 "text" +:+ newline]) = "eng".
Proof.
  apply (proj2 (proj2 routing_key_shape) configLanguage).
  repeat constructor; by vm_compute.
Defined.

Lemma body_copies_the_input_witness :
  ∃ st', processFile (clean ("x: 1" +:+ newline +:+ " two " +:+ newline +:+ "cut"))
           configA "data/output" (boot ∅ []) = Some (None, st') ∧
         routed st' =
           [ {["data" := completePart ("x: 1" +:+ newline +:+ " two " +:+ newline +:+ "cut")]} ].
Proof.
  apply (body_copies_the_input configA "data/output"
           ("x: 1" +:+ newline +:+ " two " +:+ newline +:+ "cut") ∅);
    [by vm_compute|].
  repeat constructor; by vm_compute.
Defined.

Lemma parent_key_leaves_root_witness :
  destination (Join (["data"] ++ ["output"]) "/") {[languageField := ".."]}
  = Join (["data"] ++ ["output.jsonl"]) "/" ∧
  routingKey {[languageField := ".."]} = "..".
Proof.
  apply (parent_key_leaves_root ["data"] "output" {[languageField := ".."]});
    [repeat constructor; by vm_compute|by vm_compute].
Defined.

(** The run that writes outside its output root: the record of the line
    [WARC-Identified-Content-Language: ..] goes to [data/output.jsonl]. *)
Example parent_key_run :
  ∃ st', processFile (clean ("WARC-Identified-Content-Language: .." +:+ newline))
           configLanguage "data/output" (boot ∅ []) = Some (None, st') ∧
         opened st' = ["data/output.jsonl"].
Proof. eexists. split; by vm_compute. Qed.

Lemma empty_record_start_is_blank_line_witness :
  isRecordStart {| ReservedWords := ["A"]; RecordStart := "" |} (String "013" newline)
  = allSpace (String "013" newline).
Proof.
  apply (empty_record_start_is_blank_line
           {| ReservedWords := ["A"]; RecordStart := "" |});
    [apply asciiText_agrees|done|by vm_compute].
Defined.

Lemma no_reserved_word_no_field_witness :
  (∀ line, isField {| ReservedWords := []; RecordStart := "---" |} line = false) ∧
  build {| ReservedWords := []; RecordStart := "---" |}
    ["WARC-Identified-Content-Language: fra" +:+ newline; "text" +:+ newline]
  = (if ["WARC-Identified-Content-Language: fra" +:+ newline; "text" +:+ newline]
       is [] then ∅
     else {["data" :=
              glue ["WARC-Identified-Content-Language: fra" +:+ newline;
                    "text" +:+ newline]]}) ∧
  routingKey
    (build {| ReservedWords := []; RecordStart := "---" |}
       ["WARC-Identified-Content-Language: fra" +:+ newline; "text" +:+ newline])
  = "eng".
Proof.
  by apply (no_reserved_word_no_field {| ReservedWords := []; RecordStart := "---" |}).
Defined.

End OnASCII.
